(** * Credit-balanced binary search tree

    A shallow embedding of [credit-balanced-bst.js] and the proofs of its
    specification.

    Modelling conventions.
    - A JavaScript node object is a [Node]; [null] (and [undefined], which
      the source only ever tests for truthiness) is [Null].  A subtree is
      owned by exactly one parent slot, so a subtree is a value of [tree].
    - Credits are JavaScript numbers.  They are modelled by [Z]: the integers
      on which JavaScript arithmetic is exact.
    - Keys are compared with [<], [>] and [===].  The interface [JsKey]
      collects these operations for a totally ordered key type; numbers
      ([Z]) and strings are instances.
    - A [TypeError] (reading a property of [null]) is the result [None]. *)

From Stdlib Require Import ZArith List Bool Lia String Ascii Sorted Permutation.
Import ListNotations.

Set Implicit Arguments.
Local Open Scope Z_scope.

(** ** Keys *)

Class JsKey (K : Type) : Type := {
  ltb : K -> K -> bool;
  eqb : K -> K -> bool;
  eqb_eq : forall a b, eqb a b = true <-> a = b;
  ltb_irrefl : forall a, ltb a a = false;
  ltb_trans : forall a b c, ltb a b = true -> ltb b c = true -> ltb a c = true;
  ltb_total : forall a b, ltb a b = false -> ltb b a = false -> a = b
}.

Declare Scope js_scope.
Notation "a <? b" := (ltb a b) : js_scope.
Notation "a >? b" := (ltb b a) : js_scope.
Notation "a === b" := (eqb a b) (at level 70, no associativity) : js_scope.

(** ** The error monad of a call that may throw *)

Definition bind {A B : Type} (m : option A) (f : A -> option B) : option B :=
  match m with
  | Some a => f a
  | None => None
  end.

Notation "x <- m ;; k" := (bind m (fun x => k))
  (at level 61, m at next level, right associativity).

Section Tree.

Context {K : Type} {KO : JsKey K} {D : Type}.

(** ** Nodes *)

Inductive tree : Type :=
| Null : tree
| Node (key : K) (data : D) (creditSum credit : Z) (left right : tree).

(** [new CreditNode(key, data, credit)] *)
Definition CreditNode (key : K) (data : D) (credit : Z) : tree :=
  Node key data credit credit Null Null.

Definition isNull (node : tree) : bool :=
  match node with
  | Null => true
  | Node _ _ _ _ _ _ => false
  end.

(** [n ? n.left : null] and [n ? n.right : null] *)
Definition leftOf (node : tree) : tree :=
  match node with
  | Null => Null
  | Node _ _ _ _ l _ => l
  end.

Definition rightOf (node : tree) : tree :=
  match node with
  | Null => Null
  | Node _ _ _ _ _ r => r
  end.

(** [n.credit]; every use in the source is guarded by a test that [n] is
    not null, the value at [Null] is never consulted. *)
Definition creditOf (node : tree) : Z :=
  match node with
  | Null => 0
  | Node _ _ _ c _ _ => c
  end.

Definition keyOf (node : tree) : option K :=
  match node with
  | Null => None
  | Node k _ _ _ _ _ => Some k
  end.

Definition dataOf (node : tree) : option D :=
  match node with
  | Null => None
  | Node _ d _ _ _ _ => Some d
  end.

(** ** Aggregate maintenance *)

Definition getCreditSum (node : tree) : Z :=
  match node with
  | Null => 0
  | Node _ _ s _ _ _ => s
  end.

Definition updateCreditSum (node : tree) : tree :=
  match node with
  | Null => Null
  | Node k d _ c l r => Node k d (c + getCreditSum l + getCreditSum r) c l r
  end.

(** [checkSumError] only writes to the console; the model returns whether
    it does.  On integers [diff > 1e-4] is [10000 * diff > 1]. *)
Definition checkSumError (node : tree) : bool :=
  let leftSum := getCreditSum (leftOf node) in
  let rightSum := getCreditSum (rightOf node) in
  let diff := Z.abs (leftSum + creditOf node + rightSum - getCreditSum node) in
  (1 <? 10000 * diff)%Z.

(** ** Rotations *)

Definition rotateRight (y : tree) : option tree :=
  match y with
  | Node ky dy sy cy (Node kx dx sx cx xl T2) yr =>
      let y' := updateCreditSum (Node ky dy sy cy T2 yr) in
      Some (updateCreditSum (Node kx dx sx cx xl y'))
  | _ => None
  end.

Definition rotateLeft (x : tree) : option tree :=
  match x with
  | Node kx dx sx cx xl (Node ky dy sy cy T2 yr) =>
      let x' := updateCreditSum (Node kx dx sx cx xl T2) in
      Some (updateCreditSum (Node ky dy sy cy x' yr))
  | _ => None
  end.

(** ** Rebalancing policy *)

Inductive rotation : Type := RR | RL | LL | LR.

(** A cost is a number or [Number.MAX_VALUE]. *)
Inductive cost : Type :=
| Finite (z : Z)
| MAX_VALUE.

(** [cost < minCost] on numbers, [Number.MAX_VALUE] being the largest. *)
Definition cost_ltb (c minCost : cost) : bool :=
  match c, minCost with
  | Finite a, Finite b => (a <? b)%Z
  | Finite _, MAX_VALUE => true
  | MAX_VALUE, _ => false
  end.

Definition calculateCost (treeRoot : tree) (rotationType : rotation) : cost :=
  let O := treeRoot in
  let L := leftOf O in
  let R := rightOf O in
  let LL_ := leftOf L in
  let LR_ := rightOf L in
  let RL_ := leftOf R in
  let RR_ := rightOf R in
  let RLL := leftOf RL_ in
  let RLR := rightOf RL_ in
  let LRL := leftOf LR_ in
  let LRR := rightOf LR_ in
  match rotationType with
  | RR =>
      if isNull O || isNull R then MAX_VALUE
      else Finite (- creditOf R - getCreditSum RR_ + creditOf O + getCreditSum L)
  | RL =>
      if isNull O || isNull R || isNull RL_ then MAX_VALUE
      else Finite (-2 * creditOf RL_ + creditOf O + getCreditSum L
                   - getCreditSum RLL - getCreditSum RLR)
  | LL =>
      if isNull O || isNull L then MAX_VALUE
      else Finite (- creditOf L - getCreditSum LL_ + creditOf O + getCreditSum R)
  | LR =>
      if isNull O || isNull L || isNull LR_ then MAX_VALUE
      else Finite (-2 * getCreditSum LR_ + creditOf O - getCreditSum LRL
                   - getCreditSum LRR + getCreditSum R)
  end.

(** [Object.entries(costs)]: the properties in creation order. *)
Definition costs (treeRoot : tree) : list (rotation * cost) :=
  [ (RR, calculateCost treeRoot RR);
    (RL, calculateCost treeRoot RL);
    (LL, calculateCost treeRoot LL);
    (LR, calculateCost treeRoot LR) ].

(** One iteration of the selection loop on the pair
    [(minCost, bestRotation)]. *)
Definition selectStep (st : cost * option rotation) (e : rotation * cost)
  : cost * option rotation :=
  let '(minCost, bestRotation) := st in
  let '(rot, c) := e in
  if cost_ltb c minCost then (c, Some rot) else st.

Definition selectLoop (treeRoot : tree) : cost * option rotation :=
  fold_left selectStep (costs treeRoot) (Finite 0, None).

Definition bestRotation (treeRoot : tree) : option rotation :=
  snd (selectLoop treeRoot).

Definition setLeft (node l : tree) : tree :=
  match node with
  | Null => Null
  | Node k d s c _ r => Node k d s c l r
  end.

Definition setRight (node r : tree) : tree :=
  match node with
  | Null => Null
  | Node k d s c l _ => Node k d s c l r
  end.

Definition applyRotation (rot : rotation) (treeRoot : tree) : option tree :=
  let O := treeRoot in
  let L := leftOf O in
  let R := rightOf O in
  match rot with
  | RR => rotateLeft O
  | RL => R' <- rotateRight R ;; rotateLeft (setRight O R')
  | LL => rotateRight O
  | LR => L' <- rotateLeft L ;; rotateRight (setLeft O L')
  end.

Definition balance (treeRoot : tree) : option tree :=
  match treeRoot with
  | Null => Some treeRoot
  | Node _ _ _ _ _ _ =>
      match bestRotation treeRoot with
      | Some rot => applyRotation rot treeRoot
      | None => Some treeRoot
      end
  end.

(** [returnedNode == node] compares object identities.  A rotation returns
    a child or a grandchild of [node], so the two are the same object
    exactly when no rotation was selected. *)
Definition sameNode (node : tree) : bool :=
  match bestRotation node with
  | Some _ => false
  | None => true
  end.

(** The tail shared by the mutators: rebalance, and refresh the aggregate
    when [balance] returned its argument. *)
Definition rebalance (node : tree) : option tree :=
  returnedNode <- balance node ;;
  Some (if sameNode node then updateCreditSum node else returnedNode).

(** ** Mutators *)

Local Open Scope js_scope.

Fixpoint insertNode (node : tree) (key : K) (data : D) (credit : Z)
  : option tree :=
  match node with
  | Null => Some (CreditNode key data credit)
  | Node k d s c l r =>
      node' <-
        (if key <? k
         then l' <- insertNode l key data credit ;; Some (Node k d s c l' r)
         else r' <- insertNode r key data credit ;; Some (Node k d s c l r')) ;;
      rebalance node'
  end.

(** The [while] loop of [deleteNode]: the leftmost node of a subtree. *)
Fixpoint minLargerNode (node : tree) : tree :=
  match node with
  | Null => Null
  | Node _ _ _ _ Null _ => node
  | Node _ _ _ _ l _ => minLargerNode l
  end.

Fixpoint deleteNode (node : tree) (key : K) : option tree :=
  match node with
  | Null => Some Null
  | Node k d s c l r =>
      if key <? k then
        l' <- deleteNode l key ;;
        rebalance (updateCreditSum (Node k d s c l' r))
      else if key >? k then
        r' <- deleteNode r key ;;
        rebalance (updateCreditSum (Node k d s c l r'))
      else
        match l, r with
        | Null, _ => Some r
        | _, Null => Some l
        | _, _ =>
            match minLargerNode r with
            | Null => None (* not reached: [r] is a node *)
            | Node mk md _ _ _ _ =>
                r' <- deleteNode r mk ;;
                rebalance (updateCreditSum (Node mk md s c l r'))
            end
        end
  end.

(** What [updateCreditRecursive] returns.  On an empty subtree the source
    returns the number [0], whose [newNode] and [difference] properties are
    [undefined]: [newNode] is then [Null] and [difference] is [None].

    [self] is not a field of the returned object.  It is the argument
    [node] as the call leaves it: the objects are mutated in place, and a
    caller that keeps its reference to [node] sees this subtree. *)
Record updateResult : Type := {
  newNode : tree;
  difference : option Z;
  self : tree
}.

(** Where a rotation of [balance] leaves the object it was called on:
    the left child of the new root after a rotation to the left, the right
    child after a rotation to the right. *)
Definition selfAfter (rot : rotation) (returnedNode : tree) : tree :=
  match rot with
  | RR | RL => leftOf returnedNode
  | LL | LR => rightOf returnedNode
  end.

Fixpoint updateCreditRecursive (node : tree) (key : K) (newCredit : Z)
  : option updateResult :=
  match node with
  | Null => Some {| newNode := Null; difference := None; self := Null |}
  | Node k d s c l r =>
      if k === key then
        let node' := updateCreditSum (Node k d s newCredit l r) in
        Some {| newNode := node';
                difference := Some (newCredit - c);
                self := node' |}
      else
        linked <-
          (if key <? k
           then result <- updateCreditRecursive l key newCredit ;;
                Some (Node k d s c (newNode result) r, difference result)
           else result <- updateCreditRecursive r key newCredit ;;
                Some (Node k d s c l (newNode result), difference result)) ;;
        let '(node', diff) := linked in
        returnedNode <- balance node' ;;
        match bestRotation node' with
        | None =>
            let n := updateCreditSum node' in
            Some {| newNode := n; difference := diff; self := n |}
        | Some rot =>
            Some {| newNode := returnedNode;
                    difference := diff;
                    self := selfAfter rot returnedNode |}
        end
  end.

(** ** Queries *)

(** The result is the node found, or [Null] for [null]. *)
Fixpoint findNodeByCreditHelper (node : tree) (creditSum : Z) : tree :=
  match node with
  | Null => Null
  | Node _ _ _ c l r =>
      let leftCreditSum := getCreditSum l in
      if (creditSum <? leftCreditSum)%Z then
        findNodeByCreditHelper l creditSum
      else if (creditSum <? leftCreditSum + c)%Z then
        node
      else
        findNodeByCreditHelper r (creditSum - leftCreditSum - c)
  end.

Fixpoint findNodesByKeyHelper (node : tree) (key : K) : list tree :=
  match node with
  | Null => []
  | Node k _ _ _ l r =>
      if key <? k then findNodesByKeyHelper l key
      else if key >? k then findNodesByKeyHelper r key
      else findNodesByKeyHelper l key ++ [node] ++ findNodesByKeyHelper r key
  end.

(** ** The public class *)

Record CreditBalancedBST : Type := { root : tree }.

(** [new CreditBalancedBST()] *)
Definition create : CreditBalancedBST := {| root := Null |}.

Definition getTotalCredit (this : CreditBalancedBST) : Z :=
  getCreditSum (root this).

(** [isEmpty] is not embedded.  It tests [this.root === null], which tells
    [null] from [undefined]; [updateCreditRecursive] stores [undefined] in
    a child slot when the key is absent and [deleteNode] can move that
    value to the root, and [Null] stands for both.  What the model does
    record is whether the root slot holds a node: [isNull (root this)]. *)

Definition insert (this : CreditBalancedBST) (key : K) (data : D) (credit : Z)
  : option CreditBalancedBST :=
  r <- insertNode (root this) key data credit ;;
  Some {| root := r |}.

Definition delete (this : CreditBalancedBST) (key : K)
  : option CreditBalancedBST :=
  r <- deleteNode (root this) key ;;
  Some {| root := r |}.

Definition findNodeByCredit (this : CreditBalancedBST) (creditSum : Z) : tree :=
  findNodeByCreditHelper (root this) creditSum.

Definition findNodesByKey (this : CreditBalancedBST) (key : K) : list tree :=
  findNodesByKeyHelper (root this) key.

(** The source discards the value returned by [updateCreditRecursive] and
    does not assign [this.root]: the root slot keeps pointing to the object
    it pointed to before the call. *)
Definition updateCreditByKey (this : CreditBalancedBST) (key : K)
  (newCredit : Z) : option CreditBalancedBST :=
  result <- updateCreditRecursive (root this) key newCredit ;;
  Some {| root := self result |}.

(** ** Sequences of public mutating operations *)

Inductive operation : Type :=
| Insert (key : K) (data : D) (credit : Z)
| Delete (key : K)
| UpdateCreditByKey (key : K) (newCredit : Z).

Definition perform (this : CreditBalancedBST) (o : operation)
  : option CreditBalancedBST :=
  match o with
  | Insert key data credit => insert this key data credit
  | Delete key => delete this key
  | UpdateCreditByKey key newCredit => updateCreditByKey this key newCredit
  end.

Fixpoint performAll (this : CreditBalancedBST) (ops : list operation)
  : option CreditBalancedBST :=
  match ops with
  | [] => Some this
  | o :: ops' => this' <- perform this o ;; performAll this' ops'
  end.

(** The structure reached from an empty one. *)
Definition run (ops : list operation) : option CreditBalancedBST :=
  performAll create ops.

End Tree.

Arguments tree : clear implicits.
Arguments CreditBalancedBST : clear implicits.
Arguments operation : clear implicits.
Arguments updateResult : clear implicits.

Arguments balance : simpl never.
Arguments bestRotation : simpl never.
Arguments rebalance : simpl never.

(** ** Key types *)

(** Numbers as keys. *)
#[export, refine] Instance Z_JsKey : JsKey Z :=
  {| ltb := Z.ltb; eqb := Z.eqb |}.
Proof.
  - intros a b. apply Z.eqb_eq.
  - intros a. apply Z.ltb_irrefl.
  - intros a b c Hab Hbc. apply Z.ltb_lt in Hab, Hbc. apply Z.ltb_lt. lia.
  - intros a b Hab Hba. apply Z.ltb_ge in Hab, Hba. lia.
Defined.

(** Strings as keys: [<] compares code units lexicographically. *)

Lemma ascii_compare_refl (a : ascii) : Ascii.compare a a = Eq.
Proof. unfold Ascii.compare. apply N.compare_refl. Qed.

Lemma ascii_compare_lt_trans (a b c : ascii) :
  Ascii.compare a b = Lt -> Ascii.compare b c = Lt -> Ascii.compare a c = Lt.
Proof.
  unfold Ascii.compare. rewrite !N.compare_lt_iff. apply N.lt_trans.
Qed.

Lemma string_compare_refl (s : string) : String.compare s s = Eq.
Proof.
  induction s as [|a s IH]; simpl; [reflexivity|].
  now rewrite ascii_compare_refl.
Qed.

Lemma string_compare_lt_trans (s1 s2 s3 : string) :
  String.compare s1 s2 = Lt -> String.compare s2 s3 = Lt ->
  String.compare s1 s3 = Lt.
Proof.
  revert s2 s3.
  induction s1 as [|a s1 IH]; intros [|b s2] [|c s3]; simpl;
    try discriminate; try reflexivity.
  destruct (Ascii.compare a b) eqn:Hab; try discriminate;
    destruct (Ascii.compare b c) eqn:Hbc; try discriminate; intros H12 H23.
  - apply Ascii.compare_eq_iff in Hab, Hbc. subst.
    rewrite ascii_compare_refl. eauto.
  - apply Ascii.compare_eq_iff in Hab. subst. now rewrite Hbc.
  - apply Ascii.compare_eq_iff in Hbc. subst. now rewrite Hab.
  - now rewrite (ascii_compare_lt_trans _ _ _ Hab Hbc).
Qed.

#[export, refine] Instance string_JsKey : JsKey string :=
  {| ltb := String.ltb; eqb := String.eqb |}.
Proof.
  - intros a b. apply String.eqb_eq.
  - intros a. unfold String.ltb. now rewrite string_compare_refl.
  - intros a b c. unfold String.ltb.
    destruct (String.compare a b) eqn:Hab; try discriminate.
    destruct (String.compare b c) eqn:Hbc; try discriminate.
    now rewrite (string_compare_lt_trans _ _ _ Hab Hbc).
  - intros a b. unfold String.ltb. rewrite (String.compare_antisym b a).
    destruct (String.compare a b) eqn:Hab; simpl; try discriminate.
    intros _ _. now apply String.compare_eq_iff.
Defined.

(** ** Prefix lookup, on string keys *)

Section Prefix.

Context {D : Type}.

(** [results] is the array the helper pushes to; the new contents are
    returned. *)
Fixpoint findNodesByPrefixHelper (node : tree string D) (prefix : string)
  (results : list (tree string D)) : list (tree string D) :=
  match node with
  | Null => results
  | Node k _ _ _ l r =>
      if (prefix =? "")%string || String.prefix prefix k then
        let results1 := results ++ [node] in
        let results2 := findNodesByPrefixHelper l prefix results1 in
        findNodesByPrefixHelper r prefix results2
      else if String.ltb prefix k then
        findNodesByPrefixHelper l prefix results
      else
        findNodesByPrefixHelper r prefix results
  end.

(** The argument is [None] when the caller omits it. *)
Definition findNodesByPrefix (this : CreditBalancedBST string D)
  (prefix : option string) : list (tree string D) :=
  let prefix :=
    match prefix with
    | Some p => p
    | None => ""%string
    end in
  findNodesByPrefixHelper (root this) prefix [].

(** [node.key.startsWith(prefix)] *)
Definition startsWith (prefix : string) (node : tree string D) : bool :=
  match node with
  | Null => false
  | Node k _ _ _ _ _ => String.prefix prefix k
  end.

End Prefix.

(** ** Observations used by the specification *)

Section Observations.

Context {K : Type} {KO : JsKey K} {D : Type}.

(** What a node carries of its own: key, payload and credit. *)
Definition entry : Type := (K * D * Z)%type.

Definition entryKey (e : entry) : K := fst (fst e).
Definition entryCredit (e : entry) : Z := snd e.

(** The nodes of a tree in symmetric (left, node, right) order; a node is
    given with the subtree it roots. *)
Fixpoint nodes (t : tree K D) : list (tree K D) :=
  match t with
  | Null => []
  | Node _ _ _ _ l r => nodes l ++ [t] ++ nodes r
  end.

(** The same sequence, keeping of each node what it carries of its own. *)
Fixpoint entries (t : tree K D) : list entry :=
  match t with
  | Null => []
  | Node k d _ c l r => entries l ++ [(k, d, c)] ++ entries r
  end.

Definition keys (t : tree K D) : list K := map entryKey (entries t).

(** The nodes, parent first. *)
Fixpoint preorder (t : tree K D) : list (tree K D) :=
  match t with
  | Null => []
  | Node _ _ _ _ l r => [t] ++ preorder l ++ preorder r
  end.

Definition sumCredits (es : list entry) : Z :=
  fold_right (fun e acc => entryCredit e + acc) 0 es.

(** The aggregate equation at one node. *)
Definition sumOk (node : tree K D) : Prop :=
  getCreditSum node
  = creditOf node + getCreditSum (leftOf node) + getCreditSum (rightOf node).

(** The aggregate invariant: the equation holds at every node. *)
Fixpoint invariant (t : tree K D) : Prop :=
  match t with
  | Null => True
  | Node _ _ _ _ l r => sumOk t /\ invariant l /\ invariant r
  end.

(** [a <= b] on keys: not [b < a]. *)
Definition key_le (a b : K) : Prop := ltb b a = false.

(** Binary-search ordering: the keys in symmetric order never decrease. *)
Definition ordered (t : tree K D) : Prop := Sorted key_le (keys t).

(** The same on a list of keys, each key bounding all later ones. *)
Definition sortedKeys (l : list K) : Prop := StronglySorted key_le l.

Definition hasKey (t : tree K D) (k : K) : Prop := In k (keys t).

(** The symmetric-order sequence that [insertNode] produces. *)
Fixpoint insertEntries (t : tree K D) (key : K) (data : D) (credit : Z)
  : list entry :=
  match t with
  | Null => [(key, data, credit)]
  | Node k d _ c l r =>
      if ltb key k
      then insertEntries l key data credit ++ [(k, d, c)] ++ entries r
      else entries l ++ [(k, d, c)] ++ insertEntries r key data credit
  end.

(** The symmetric-order sequence that [deleteNode] produces. *)
Fixpoint deleteEntries (t : tree K D) (key : K) : list entry :=
  match t with
  | Null => []
  | Node k d _ c l r =>
      if ltb key k then deleteEntries l key ++ [(k, d, c)] ++ entries r
      else if ltb k key then entries l ++ [(k, d, c)] ++ deleteEntries r key
      else
        match l, r with
        | Null, _ => entries r
        | _, Null => entries l
        | _, _ =>
            match minLargerNode r with
            | Null => []
            | Node mk md _ _ _ _ =>
                entries l ++ [(mk, md, c)] ++ deleteEntries r mk
            end
        end
  end.

(** The symmetric-order sequence of the subtree that
    [updateCreditRecursive] returns. *)
Fixpoint updateEntries (t : tree K D) (key : K) (newCredit : Z) : list entry :=
  match t with
  | Null => []
  | Node k d _ c l r =>
      if eqb k key then entries l ++ [(k, d, newCredit)] ++ entries r
      else if ltb key k
      then updateEntries l key newCredit ++ [(k, d, c)] ++ entries r
      else entries l ++ [(k, d, c)] ++ updateEntries r key newCredit
  end.

(** The credit of the first node with key [key] on the comparison descent. *)
Fixpoint oldCredit (t : tree K D) (key : K) : option Z :=
  match t with
  | Null => None
  | Node k _ _ c l r =>
      if eqb k key then Some c
      else if ltb key k then oldCredit l key
      else oldCredit r key
  end.

(** What a node object carries of its own; nothing for [null]. *)
Definition entryOf (node : tree K D) : option entry :=
  match node with
  | Null => None
  | Node k d _ c _ _ => Some (k, d, c)
  end.

(** [node.key === key] *)
Definition keyIs (key : K) (node : tree K D) : bool :=
  match node with
  | Null => false
  | Node k _ _ _ _ _ => eqb k key
  end.

(** [s] is [t] or one of its two subtrees. *)
Definition nearSubtree (s t : tree K D) : Prop :=
  s = t \/ s = leftOf t \/ s = rightOf t.

End Observations.

(** The selection loop on four given costs, and the cost it reads for each
    candidate. *)
Definition scan4 (c1 c2 c3 c4 : cost) : option rotation :=
  snd (fold_left selectStep [(RR, c1); (RL, c2); (LL, c3); (LR, c4)]
         (Finite 0, None)).

Definition look4 (c1 c2 c3 c4 : cost) (r : rotation) : cost :=
  match r with
  | RR => c1
  | RL => c2
  | LL => c3
  | LR => c4
  end.

(** The scanning order of the candidates. *)
Definition rank (r : rotation) : nat :=
  match r with
  | RR => 0
  | RL => 1
  | LL => 2
  | LR => 3
  end.

Definition cost_lt (a b : cost) : Prop := cost_ltb a b = true.
Definition cost_le (a b : cost) : Prop := cost_ltb b a = false.

Section Policy.

Context {K : Type} {KO : JsKey K} {D : Type}.

(** A candidate wins the selection when its cost is negative, no candidate
    is cheaper, and every candidate scanned before it is strictly more
    expensive. *)
Definition winner (t : tree K D) (r : rotation) : Prop :=
  cost_lt (calculateCost t r) (Finite 0) /\
  forall r', cost_le (calculateCost t r) (calculateCost t r') /\
             ((rank r' < rank r)%nat ->
              cost_lt (calculateCost t r) (calculateCost t r')).

(** A node whose aggregate has just been refreshed. *)
Definition refreshed (k : K) (d : D) (c : Z) (l r : tree K D) : tree K D :=
  Node k d (c + getCreditSum l + getCreditSum r) c l r.

(** The subtree each rotation builds, when the nodes it needs exist. *)
Definition rotatedShape (rot : rotation) (t : tree K D) : option (tree K D) :=
  match rot, t with
  | RR, Node ko do _ co L (Node kr dr _ cr RL_ RR_) =>
      Some (refreshed kr dr cr (refreshed ko do co L RL_) RR_)
  | RL, Node ko do _ co L (Node kr dr _ cr (Node km dm _ cm RLL RLR) RR_) =>
      Some (refreshed km dm cm (refreshed ko do co L RLL)
                               (refreshed kr dr cr RLR RR_))
  | LL, Node ko do _ co (Node kl dl _ cl LL_ LR_) R =>
      Some (refreshed kl dl cl LL_ (refreshed ko do co LR_ R))
  | LR, Node ko do _ co (Node kl dl _ cl LL_ (Node km dm _ cm LRL LRR)) R =>
      Some (refreshed km dm cm (refreshed kl dl cl LL_ LRL)
                               (refreshed ko do co LRR R))
  | _, _ => None
  end.

(** The cost table of the rebalancing policy. *)
Definition costTable (rot : rotation) (t : tree K D) : cost :=
  match rot, t with
  | RR, Node _ _ _ co L (Node _ _ _ cr _ RR_) =>
      Finite (- cr - getCreditSum RR_ + co + getCreditSum L)
  | RL, Node _ _ _ co L (Node _ _ _ _ (Node _ _ _ cm RLL RLR) _) =>
      Finite (-2 * cm + co + getCreditSum L - getCreditSum RLL - getCreditSum RLR)
  | LL, Node _ _ _ co (Node _ _ _ cl LL_ _) R =>
      Finite (- cl - getCreditSum LL_ + co + getCreditSum R)
  | LR, Node _ _ _ co (Node _ _ _ _ _ (Node _ _ sm _ LRL LRR)) R =>
      Finite (-2 * sm + co - getCreditSum LRL - getCreditSum LRR + getCreditSum R)
  | _, _ => MAX_VALUE
  end.

(** The selection stated in the order of the integers, without the
    comparison that the loop calls: the cost of [r] is a number below 0,
    no candidate has a smaller cost, and every candidate scanned before
    [r] has a strictly greater one.  A candidate of cost [MAX_VALUE] has
    no number: it can neither be selected nor undercut the selected
    one. *)
Definition cheapest (t : tree K D) (r : rotation) : Prop :=
  exists z,
    calculateCost t r = Finite z /\ z < 0 /\
    forall r' z', calculateCost t r' = Finite z' ->
                  z <= z' /\ ((rank r' < rank r)%nat -> z < z').

End Policy.

(** ** Cumulative credit *)

Section Cumulative.

Context {K : Type} {D : Type}.





End Cumulative.

(** ** Concrete structures *)

Module Examples.

Local Open Scope string_scope.

(** The scenario of the documentation. *)
Definition readmeOps : list (operation string string) :=
  [ Insert "user1" "Alice" 10; Insert "user2" "Bob" 20;
    Insert "user3" "Charlie" 15 ].

Definition readmeTree : CreditBalancedBST string string :=
  {| root := Node "user2" "Bob" 45 20
               (Node "user1" "Alice" 10 10 Null Null)
               (Node "user3" "Charlie" 15 15 Null Null) |}.



(** Inserts after which the node of ["c"] has a cheaper rotation left
    untried: it was moved down by the rotation at the root. *)
Definition unsettledOps : list (operation string string) :=
  [ Insert "c" "C" 1; Insert "a" "A" 1; Insert "d" "D" 2; Insert "b" "B" 5 ].

Definition unsettledTree : CreditBalancedBST string string :=
  {| root := Node "b" "B" 9 5
               (Node "a" "A" 1 1 Null Null)
               (Node "c" "C" 3 1 Null (Node "d" "D" 2 2 Null Null)) |}.


(** Three nodes of credit 1, the root having both children. *)
Definition threeOps : list (operation string string) :=
  [ Insert "b" "B" 1; Insert "a" "A" 1; Insert "c" "C" 1 ].

Definition threeTree : CreditBalancedBST string string :=
  {| root := Node "b" "B" 3 1
               (Node "a" "A" 1 1 Null Null)
               (Node "c" "C" 1 1 Null Null) |}.

(** A root with two children whose right subtree holds the key ["m"]
    twice, the node inserted second above the node inserted first. *)
Definition twinOps : list (operation string string) :=
  [ Insert "b" "B" 10; Insert "a" "A" 1;
    Insert "m" "first" 1; Insert "m" "second" 5 ].

Definition twinTree : CreditBalancedBST string string :=
  {| root := Node "b" "B" 17 10
               (Node "a" "A" 1 1 Null Null)
               (Node "m" "second" 6 5
                  (Node "m" "first" 1 1 Null Null) Null) |}.

(** A root lighter than its right child: the credit of ["a"] was lowered
    at the root, where the update does not rebalance. *)
Definition lightRootOps : list (operation string string) :=
  [ Insert "a" "A" 5; Insert "b" "B" 3; UpdateCreditByKey "a" 1 ].

Definition lightRootTree : CreditBalancedBST string string :=
  {| root := Node "a" "A" 4 1 Null (Node "b" "B" 3 3 Null Null) |}.

End Examples.

(** ** The queries on the object graph

    The claims above read a subtree as a value.  To say that a query
    leaves the structure as it is, the node objects are placed in a
    memory: each slot holds the address of a node object or nothing, a
    field is read by loading the object at an address, and a field
    assignment stores an object.  A call is an action on the memory; it
    fails when it loads an address that holds no object or when the fuel
    that bounds the recursion runs out. *)

(** What a slot holds: the address of a node object, or nothing for
    [null] and [undefined]. *)
Definition pointer : Type := option nat.

Definition action (S A : Type) : Type := S -> option (S * A).

Definition pure {S A : Type} (a : A) : action S A := fun s => Some (s, a).

Definition abort {S A : Type} : action S A := fun _ => None.

Definition andThen {S A B : Type} (m : action S A) (f : A -> action S B)
  : action S B :=
  fun s =>
    match m s with
    | Some (s', a) => f a s'
    | None => None
    end.

Notation "x <~ m ;; k" := (andThen m (fun x => k))
  (at level 61, m at next level, right associativity).

Section ObjectGraph.

Context {K : Type} {KO : JsKey K} {D : Type}.

(** A node object: the fields of [CreditNode]. *)
Record object : Type := {
  keyField : K;
  dataField : D;
  creditSumField : Z;
  creditField : Z;
  leftField : pointer;
  rightField : pointer
}.

(** The node objects by address, and the [root] slot of the structure. *)
Record memory : Type := {
  objects : list object;
  rootSlot : pointer
}.

(** [node.field]: the state is inspected through [view], so that the
    same reads serve a call that also carries a local array. *)
Definition read {S A : Type} (view : S -> memory) (field : object -> A)
  (a : nat) : action S A :=
  fun s =>
    match nth_error (objects (view s)) a with
    | Some o => Some (s, field o)
    | None => None
    end.

(** [this.root] *)
Definition readRoot : action memory pointer :=
  fun m => Some (m, rootSlot m).

Fixpoint setNth (a : nat) (o : object) (os : list object) : list object :=
  match os, a with
  | [], _ => []
  | _ :: os', O => o :: os'
  | o' :: os', S a' => o' :: setNth a' o os'
  end.

(** [node.creditSum = v], the one field assignment of
    [updateCreditSum]. *)
Definition writeCreditSum (a : nat) (v : Z) : action memory unit :=
  fun m =>
    match nth_error (objects m) a with
    | Some o =>
        let o' := {| keyField := keyField o; dataField := dataField o;
                     creditSumField := v; creditField := creditField o;
                     leftField := leftField o; rightField := rightField o |} in
        Some ({| objects := setNth a o' (objects m); rootSlot := rootSlot m |},
              tt)
    | None => None
    end.

Definition getCreditSumOn {S : Type} (view : S -> memory) (node : pointer)
  : action S Z :=
  match node with
  | None => pure 0
  | Some a => read view creditSumField a
  end.

(** [updateCreditSum] on the memory: the mutators write, the queries
    below do not. *)
Definition updateCreditSumOn (node : pointer) : action memory unit :=
  match node with
  | None => pure tt
  | Some a =>
      c <~ read id creditField a ;;
      l <~ read id leftField a ;;
      leftSum <~ getCreditSumOn id l ;;
      r <~ read id rightField a ;;
      rightSum <~ getCreditSumOn id r ;;
      writeCreditSum a (c + leftSum + rightSum)
  end.

Fixpoint findNodeByCreditOn (fuel : nat) (node : pointer) (creditSum : Z)
  : action memory pointer :=
  match fuel with
  | O => abort
  | S fuel' =>
      match node with
      | None => pure None
      | Some a =>
          l <~ read id leftField a ;;
          leftCreditSum <~ getCreditSumOn id l ;;
          if (creditSum <? leftCreditSum)%Z then
            findNodeByCreditOn fuel' l creditSum
          else
            c <~ read id creditField a ;;
            if (creditSum <? leftCreditSum + c)%Z then
              pure node
            else
              r <~ read id rightField a ;;
              findNodeByCreditOn fuel' r (creditSum - leftCreditSum - c)
      end
  end.

Fixpoint findNodesByKeyOn (fuel : nat) (node : pointer) (key : K)
  : action memory (list pointer) :=
  match fuel with
  | O => abort
  | S fuel' =>
      match node with
      | None => pure []
      | Some a =>
          k <~ read id keyField a ;;
          if ltb key k then
            l <~ read id leftField a ;;
            findNodesByKeyOn fuel' l key
          else if ltb k key then
            r <~ read id rightField a ;;
            findNodesByKeyOn fuel' r key
          else
            l <~ read id leftField a ;;
            fromLeft <~ findNodesByKeyOn fuel' l key ;;
            r <~ read id rightField a ;;
            fromRight <~ findNodesByKeyOn fuel' r key ;;
            pure (fromLeft ++ [node] ++ fromRight)
      end
  end.

(** The public methods: [this.root] is read, then the helper runs. *)
Definition findNodeByCreditMethod (fuel : nat) (creditSum : Z)
  : action memory pointer :=
  node <~ readRoot ;; findNodeByCreditOn fuel node creditSum.

Definition findNodesByKeyMethod (fuel : nat) (key : K)
  : action memory (list pointer) :=
  node <~ readRoot ;; findNodesByKeyOn fuel node key.

(** A slot [p] of the memory [m] holds the subtree [t]. *)
Fixpoint represents (m : memory) (p : pointer) (t : tree K D) : Prop :=
  match t with
  | Null => p = None
  | Node k d s c l r =>
      exists a pl pr,
        p = Some a /\
        nth_error (objects m) a
        = Some {| keyField := k; dataField := d; creditSumField := s;
                  creditField := c; leftField := pl; rightField := pr |} /\
        represents m pl l /\ represents m pr r
  end.

(** The number of nodes on the longest descent. *)
Fixpoint height (t : tree K D) : nat :=
  match t with
  | Null => 0
  | Node _ _ _ _ l r => S (Nat.max (height l) (height r))
  end.

(** An action leaves the memory as it is when every run that returns
    returns the memory it received. *)
Definition preserves {S A : Type} (view : S -> memory) (act : action S A)
  : Prop :=
  forall s s' a, act s = Some (s', a) -> view s' = view s.

End ObjectGraph.

Arguments object : clear implicits.
Arguments memory : clear implicits.

Section PrefixOnObjectGraph.

Context {D : Type}.

(** [results.push(node)]: the array is local to the call and travels
    beside the memory. *)
Definition push (node : pointer)
  : action (memory string D * list pointer) unit :=
  fun s => Some ((fst s, snd s ++ [node]), tt).

Fixpoint findNodesByPrefixOn (fuel : nat) (node : pointer) (prefix : string)
  : action (memory string D * list pointer) unit :=
  match fuel with
  | O => abort
  | S fuel' =>
      match node with
      | None => pure tt
      | Some a =>
          k <~ read fst keyField a ;;
          if (prefix =? "")%string || String.prefix prefix k then
            _ <~ push node ;;
            l <~ read fst leftField a ;;
            _ <~ findNodesByPrefixOn fuel' l prefix ;;
            r <~ read fst rightField a ;;
            findNodesByPrefixOn fuel' r prefix
          else if String.ltb prefix k then
            l <~ read fst leftField a ;;
            findNodesByPrefixOn fuel' l prefix
          else
            r <~ read fst rightField a ;;
            findNodesByPrefixOn fuel' r prefix
      end
  end.

Definition findNodesByPrefixMethod (fuel : nat) (prefix : option string)
  : action (memory string D) (list pointer) :=
  fun m =>
    let prefix :=
      match prefix with
      | Some p => p
      | None => ""%string
      end in
    let results := [] in
    match findNodesByPrefixOn fuel (rootSlot m) prefix (m, results) with
    | Some (m', results', _) => Some (m', results')
    | None => None
    end.

End PrefixOnObjectGraph.

(** The README structure as an object graph. *)
Module MemoryExamples.

Local Open Scope string_scope.

Definition readmeMemory : memory string string :=
  {| objects :=
       [ {| keyField := "user2"; dataField := "Bob";
            creditSumField := 45; creditField := 20;
            leftField := Some 1%nat; rightField := Some 2%nat |};
         {| keyField := "user1"; dataField := "Alice";
            creditSumField := 10; creditField := 10;
            leftField := None; rightField := None |};
         {| keyField := "user3"; dataField := "Charlie";
            creditSumField := 15; creditField := 15;
            leftField := None; rightField := None |} ];
     rootSlot := Some 0%nat |}.

End MemoryExamples.

(** ** Further observations *)

Section FurtherObservations.

Context {K : Type} {KO : JsKey K} {D : Type}.

(** The key and payload of an entry, without its credit. *)
Definition keyData (e : @entry K D) : K * D := fst e.

(** The entries that do not carry [key]. *)
Definition withoutKey (key : K) (es : list (@entry K D)) : list (@entry K D) :=
  filter (fun e => negb (eqb (entryKey e) key)) es.

(** The entries that carry [key]. *)
Definition withKey (key : K) (es : list (@entry K D)) : list (@entry K D) :=
  filter (fun e => eqb (entryKey e) key) es.





End FurtherObservations.

Section CreditArguments.

Context {K : Type} {D : Type}.


End CreditArguments.

(** * Proofs *)

(** ** Aggregates, rotations and the rebalancing policy *)

Section BalanceFacts.

Context {K : Type} {KO : JsKey K} {D : Type}.

Implicit Types (t node x y : tree K D) (rot : rotation).

Lemma updateCreditSum_entries t : entries (updateCreditSum t) = entries t.
Proof. destruct t; reflexivity. Qed.

Lemma updateCreditSum_invariant node :
  invariant (leftOf node) -> invariant (rightOf node) ->
  invariant (updateCreditSum node).
Proof.
  destruct node as [|k d s c l r]; simpl; [easy|].
  intros Hl Hr. repeat split; assumption.
Qed.

Lemma rotateLeft_shape x : rotateLeft x = rotatedShape RR x.
Proof.
  destruct x as [|kx dx sx cx xl [|ky dy sy cy T2 yr]]; reflexivity.
Qed.

Lemma rotateRight_shape y : rotateRight y = rotatedShape LL y.
Proof.
  destruct y as [|ky dy sy cy [|kx dx sx cx xl T2] yr]; reflexivity.
Qed.

Lemma calculateCost_table t rot : calculateCost t rot = costTable rot t.
Proof.
  destruct rot;
    destruct t as [|ko do so co [|kl dl sl cl ll [|km dm sm cm lrl lrr]]
                                [|kr dr sr cr [|kn dn sn cn rll rlr] rr]];
    reflexivity.
Qed.

Lemma applyRotation_shape rot t : applyRotation rot t = rotatedShape rot t.
Proof.
  destruct rot;
    destruct t as [|ko do so co [|kl dl sl cl ll [|km dm sm cm lrl lrr]]
                                [|kr dr sr cr [|kn dn sn cn rll rlr] rr]];
    reflexivity.
Qed.

Lemma rotatedShape_applicable rot t z :
  costTable rot t = Finite z -> exists t', rotatedShape rot t = Some t'.
Proof.
  destruct rot;
    destruct t as [|ko do so co [|kl dl sl cl ll [|km dm sm cm lrl lrr]]
                                [|kr dr sr cr [|kn dn sn cn rll rlr] rr]];
    simpl; intros H; try discriminate; eexists; reflexivity.
Qed.

Lemma rotatedShape_entries rot t t' :
  rotatedShape rot t = Some t' -> entries t' = entries t.
Proof.
  destruct rot;
    destruct t as [|ko do so co [|kl dl sl cl ll [|km dm sm cm lrl lrr]]
                                [|kr dr sr cr [|kn dn sn cn rll rlr] rr]];
    simpl; intros H; try discriminate; injection H as <-; simpl;
    repeat rewrite <- app_assoc; simpl; repeat rewrite <- app_assoc;
    reflexivity.
Qed.

Lemma rotatedShape_invariant rot t t' :
  rotatedShape rot t = Some t' ->
  invariant (leftOf t) -> invariant (rightOf t) -> invariant t'.
Proof.
  destruct rot;
    destruct t as [|ko do so co [|kl dl sl cl ll [|km dm sm cm lrl lrr]]
                                [|kr dr sr cr [|kn dn sn cn rll rlr] rr]];
    simpl; intros H; try discriminate; injection H as <-;
    unfold refreshed; simpl; unfold sumOk; simpl; intuition.
Qed.

(** The selection loop, case by case on four arbitrary costs. *)

Ltac cost_cases :=
  repeat (match goal with
          | |- context [(?a <? ?b)%Z] => destruct (Z.ltb_spec a b)
          | H : context [(?a <? ?b)%Z] |- _ => destruct (Z.ltb_spec a b)
          end; simpl in *).

Lemma scan4_None c1 c2 c3 c4 :
  scan4 c1 c2 c3 c4 = None <->
  forall r, cost_le (Finite 0) (look4 c1 c2 c3 c4 r).
Proof.
  unfold scan4, cost_le. split.
  - intros H r.
    destruct r, c1, c2, c3, c4; simpl in *; cost_cases;
      simpl in *; try reflexivity; try discriminate; try lia.
  - intros H.
    pose proof (H RR) as H1. pose proof (H RL) as H2.
    pose proof (H LL) as H3. pose proof (H LR) as H4. clear H.
    destruct c1, c2, c3, c4; simpl in *;
      repeat (progress (rewrite ?H1, ?H2, ?H3, ?H4; simpl)); reflexivity.
Qed.

Lemma scan4_Some c1 c2 c3 c4 r :
  scan4 c1 c2 c3 c4 = Some r <->
  (cost_lt (look4 c1 c2 c3 c4 r) (Finite 0) /\
   forall r', cost_le (look4 c1 c2 c3 c4 r) (look4 c1 c2 c3 c4 r') /\
              ((rank r' < rank r)%nat ->
               cost_lt (look4 c1 c2 c3 c4 r) (look4 c1 c2 c3 c4 r'))).
Proof.
  unfold scan4, cost_le, cost_lt. split.
  - intros H. split.
    + destruct r, c1, c2, c3, c4; simpl in *; cost_cases;
        simpl in *; try reflexivity; try discriminate; try lia.
    + intros r'. split; [|intros Hrank].
      * destruct r, r', c1, c2, c3, c4; simpl in *; cost_cases;
          simpl in *; try reflexivity; try discriminate; try lia.
      * destruct r, r'; simpl in Hrank; try lia;
          destruct c1, c2, c3, c4; simpl in *; cost_cases;
          simpl in *; try reflexivity; try discriminate; try lia.
  - intros [Hneg Hmin].
    pose proof (Hmin RR) as [L1 S1]. pose proof (Hmin RL) as [L2 S2].
    pose proof (Hmin LL) as [L3 S3]. pose proof (Hmin LR) as [L4 S4].
    clear Hmin.
    destruct r; simpl in *;
      repeat match goal with
      | H : (?a < ?b)%nat -> _ |- _ =>
          first [ assert (a < b)%nat as Hlt by lia; specialize (H Hlt); clear Hlt
                | clear H ]
      end;
      destruct c1, c2, c3, c4; simpl in *; try discriminate;
      cost_cases; simpl in *; try reflexivity; try discriminate; try lia.
Qed.

Lemma bestRotation_scan4 t :
  bestRotation t
  = scan4 (calculateCost t RR) (calculateCost t RL)
          (calculateCost t LL) (calculateCost t LR).
Proof. reflexivity. Qed.

Lemma calculateCost_look4 t r :
  look4 (calculateCost t RR) (calculateCost t RL)
        (calculateCost t LL) (calculateCost t LR) r
  = calculateCost t r.
Proof. destruct r; reflexivity. Qed.

Lemma bestRotation_None t :
  bestRotation t = None <->
  forall r, cost_le (Finite 0) (calculateCost t r).
Proof.
  rewrite bestRotation_scan4, scan4_None.
  split; intros H r; specialize (H r);
    now rewrite calculateCost_look4 in *.
Qed.

Lemma bestRotation_Some t r :
  bestRotation t = Some r <-> winner t r.
Proof.
  rewrite bestRotation_scan4, scan4_Some. unfold winner.
  rewrite calculateCost_look4.
  split; intros [Hneg Hmin]; (split; [exact Hneg|]); intros r';
    specialize (Hmin r'); now rewrite calculateCost_look4 in *.
Qed.

(** The comparison of the loop is the order of the integers, with
    [MAX_VALUE] above every number. *)

Lemma cost_lt_Finite (c : cost) (b : Z) :
  cost_lt c (Finite b) <-> exists a, c = Finite a /\ a < b.
Proof.
  unfold cost_lt. destruct c as [a|]; simpl.
  - rewrite Z.ltb_lt. split.
    + intros H. now exists a.
    + intros (a' & [= <-] & H). exact H.
  - split; [discriminate|]. intros (a & H & _). discriminate.
Qed.

Lemma cost_le_Finite (a : Z) (c : cost) :
  cost_le (Finite a) c <-> forall z, c = Finite z -> a <= z.
Proof.
  unfold cost_le. destruct c as [z|]; simpl.
  - rewrite Z.ltb_ge. split.
    + intros H z' [= <-]. exact H.
    + intros H. now apply H.
  - split; [discriminate|reflexivity].
Qed.

Lemma cost_lt_Finite_l (a : Z) (c : cost) :
  cost_lt (Finite a) c <-> forall z, c = Finite z -> a < z.
Proof.
  unfold cost_lt. destruct c as [z|]; simpl.
  - rewrite Z.ltb_lt. split.
    + intros H z' [= <-]. exact H.
    + intros H. now apply H.
  - split; [discriminate|reflexivity].
Qed.

Lemma winner_cheapest t r : winner t r <-> cheapest t r.
Proof.
  unfold winner, cheapest. split.
  - intros [Hneg Hmin]. apply cost_lt_Finite in Hneg.
    destruct Hneg as (z & Hz & Hlt). exists z.
    split; [assumption|]. split; [assumption|].
    intros r' z' Hz'. destruct (Hmin r') as [Hle Hbefore].
    rewrite Hz in Hle, Hbefore. split.
    + exact (proj1 (cost_le_Finite _ _) Hle z' Hz').
    + intros Hrank.
      exact (proj1 (cost_lt_Finite_l _ _) (Hbefore Hrank) z' Hz').
  - intros (z & Hz & Hlt & Hmin). rewrite Hz. split.
    + apply cost_lt_Finite. now exists z.
    + intros r'. split.
      * apply cost_le_Finite. intros z' Hz'. now apply (Hmin r' z').
      * intros Hrank. apply cost_lt_Finite_l. intros z' Hz'.
        now apply (Hmin r' z').
Qed.

Lemma bestRotation_None_integers t :
  bestRotation t = None <->
  forall r z, calculateCost t r = Finite z -> 0 <= z.
Proof.
  rewrite bestRotation_None. split.
  - intros H r z Hz. specialize (H r).
    exact (proj1 (cost_le_Finite _ _) H z Hz).
  - intros H r. apply cost_le_Finite. intros z Hz. now apply (H r).
Qed.

End BalanceFacts.

Section RebalanceFacts.

Context {K : Type} {KO : JsKey K} {D : Type}.

Implicit Types (t node : tree K D) (rot : rotation).

Lemma bestRotation_applicable t rot :
  bestRotation t = Some rot -> exists t', rotatedShape rot t = Some t'.
Proof.
  intros H. apply bestRotation_Some in H. destruct H as [Hneg _].
  unfold cost_lt in Hneg. rewrite calculateCost_table in Hneg.
  destruct (costTable rot t) as [z|] eqn:E; [|discriminate].
  eapply rotatedShape_applicable; eassumption.
Qed.

(** [balance] never throws; it returns its argument or the rotated
    subtree of the selected candidate. *)
Lemma balance_cases t :
  (bestRotation t = None /\ balance t = Some t) \/
  (exists rot t', bestRotation t = Some rot /\
                  rotatedShape rot t = Some t' /\ balance t = Some t').
Proof.
  destruct (bestRotation t) as [rot|] eqn:E.
  - right. destruct (bestRotation_applicable _ E) as [t' Ht'].
    exists rot, t'. repeat split; try assumption.
    destruct t; [discriminate|].
    unfold balance. rewrite E, applyRotation_shape. exact Ht'.
  - left. split; [reflexivity|].
    destruct t; [reflexivity|]. unfold balance. now rewrite E.
Qed.

Lemma rebalance_cases node :
  (bestRotation node = None /\ rebalance node = Some (updateCreditSum node)) \/
  (exists rot t', bestRotation node = Some rot /\
                  rotatedShape rot node = Some t' /\
                  rebalance node = Some t').
Proof.
  unfold rebalance, sameNode.
  destruct (balance_cases node) as [[E Hb]|(rot & t' & E & Hs & Hb)];
    rewrite Hb, E; simpl.
  - now left.
  - right. now exists rot, t'.
Qed.

Lemma rebalance_spec node :
  exists t', rebalance node = Some t' /\
             entries t' = entries node /\
             (invariant (leftOf node) -> invariant (rightOf node) ->
              invariant t').
Proof.
  destruct (rebalance_cases node) as [[E Hb]|(rot & t' & E & Hs & Hb)].
  - exists (updateCreditSum node). repeat split; [assumption| |].
    + apply updateCreditSum_entries.
    + apply updateCreditSum_invariant.
  - exists t'. repeat split; [assumption| |].
    + eapply rotatedShape_entries; eassumption.
    + eapply rotatedShape_invariant; eassumption.
Qed.

Lemma minLargerNode_first (r : tree K D) :
  r <> Null ->
  exists mk md ms mc ml mr rest,
    minLargerNode r = Node mk md ms mc ml mr /\
    entries r = (mk, md, mc) :: rest.
Proof.
  induction r as [|k d s c l IHl r _]; intros Hr; [congruence|].
  destruct l as [|lk ld ls lc ll lr].
  - simpl. now eexists _, _, _, _, _, _, _.
  - destruct IHl as (mk & md & ms & mc & ml & mr & rest & Hm & He);
      [discriminate|].
    exists mk, md, ms, mc, ml, mr, (rest ++ [(k, d, c)] ++ entries r).
    split.
    + exact Hm.
    + change (entries (Node k d s c (Node lk ld ls lc ll lr) r))
        with (entries (Node lk ld ls lc ll lr) ++ [(k, d, c)] ++ entries r).
      now rewrite He.
Qed.

(** The mutators never throw, produce the expected symmetric-order
    sequence, and restore the aggregate invariant. *)

Lemma insertNode_spec t key data credit :
  exists t', insertNode t key data credit = Some t' /\
             entries t' = insertEntries t key data credit /\
             (invariant t -> invariant t').
Proof.
  induction t as [|k d s c l IHl r IHr].
  - exists (CreditNode key data credit). repeat split.
    unfold sumOk. simpl. lia.
  - simpl. destruct (ltb key k).
    + destruct IHl as (l' & -> & He & Hi). simpl.
      destruct (rebalance_spec (Node k d s c l' r)) as (t' & Hr & Het & Hit).
      exists t'. split; [assumption|]. split.
      * rewrite Het. simpl. now rewrite He.
      * intros (_ & Hl & Hr'). apply Hit; simpl; auto.
    + destruct IHr as (r' & -> & He & Hi). simpl.
      destruct (rebalance_spec (Node k d s c l r')) as (t' & Hr & Het & Hit).
      exists t'. split; [assumption|]. split.
      * rewrite Het. simpl. now rewrite He.
      * intros (_ & Hl & Hr'). apply Hit; simpl; auto.
Qed.

Lemma deleteNode_spec t : forall key,
  exists t', deleteNode t key = Some t' /\
             entries t' = deleteEntries t key /\
             (invariant t -> invariant t').
Proof.
  induction t as [|k d s c l IHl r IHr]; intros key.
  - exists Null. repeat split.
  - simpl. destruct (ltb key k); [|destruct (ltb k key)].
    + destruct (IHl key) as (l' & -> & He & Hi). simpl.
      destruct (rebalance_spec (Node k d (c + getCreditSum l' + getCreditSum r) c l' r))
        as (t' & Hr & Het & Hit).
      exists t'. split; [assumption|]. split.
      * rewrite Het. simpl. now rewrite He.
      * intros (_ & Hl & Hr'). apply Hit; simpl; auto.
    + destruct (IHr key) as (r' & -> & He & Hi). simpl.
      destruct (rebalance_spec (Node k d (c + getCreditSum l + getCreditSum r') c l r'))
        as (t' & Hr & Het & Hit).
      exists t'. split; [assumption|]. split.
      * rewrite Het. simpl. now rewrite He.
      * intros (_ & Hl & Hr'). apply Hit; simpl; auto.
    + destruct l as [|lk ld ls lc ll lr].
      { exists r. split; [reflexivity|]. split; [reflexivity|].
        now intros (_ & _ & Hr). }
      destruct r as [|rk rd rs rc rl rr].
      { exists (Node lk ld ls lc ll lr).
        split; [reflexivity|]. split; [reflexivity|].
        now intros (_ & Hl & _). }
      destruct (@minLargerNode_first (Node rk rd rs rc rl rr))
        as (mk & md & ms & mc & ml & mr & rest & Hm & _); [discriminate|].
      rewrite Hm.
      destruct (IHr mk) as (r' & -> & He & Hi). simpl bind.
      match goal with |- context [rebalance ?n] =>
        destruct (rebalance_spec n) as (t' & Hr & Het & Hit) end.
      exists t'. split; [assumption|]. split.
      * rewrite Het. simpl. now rewrite He.
      * intros (_ & Hl & Hr'). apply Hit; simpl; auto.
Qed.

End RebalanceFacts.

Section UpdateFacts.

Context {K : Type} {KO : JsKey K} {D : Type}.

Implicit Types (t node : tree K D) (rot : rotation).

Lemma rotatedShape_selfAfter rot t t' :
  rotatedShape rot t = Some t' -> nearSubtree (selfAfter rot t') t'.
Proof.
  intros _. unfold nearSubtree. destruct rot; simpl; auto.
Qed.

Lemma updateCreditRecursive_spec t key newCredit :
  exists res, updateCreditRecursive t key newCredit = Some res /\
              entries (newNode res) = updateEntries t key newCredit /\
              (invariant t -> invariant (newNode res)) /\
              nearSubtree (self res) (newNode res) /\
              difference res
              = option_map (fun old => newCredit - old) (oldCredit t key).
Proof.
  induction t as [|k d s c l IHl r IHr].
  - eexists. split; [reflexivity|]. simpl. unfold nearSubtree. auto.
  - simpl. destruct (eqb k key).
    + eexists. split; [reflexivity|]. simpl. unfold nearSubtree.
      repeat split; auto. all: tauto.
    + destruct (ltb key k).
      * destruct IHl as (res & -> & He & Hi & _ & Hd). simpl.
        set (node' := Node k d s c (newNode res) r).
        destruct (balance_cases node') as [[E Hb]|(rot & t' & E & Hs & Hb)];
          rewrite Hb, E; simpl.
        -- eexists. split; [reflexivity|]. simpl. rewrite He.
           unfold nearSubtree. repeat split; auto.
           all: try tauto.
        -- eexists. split; [reflexivity|]. simpl.
           rewrite (rotatedShape_entries _ _ Hs). simpl. rewrite He.
           split; [reflexivity|]. split; [|split].
           ++ intros (_ & Hl & Hr).
              eapply rotatedShape_invariant; [eassumption| |]; simpl; auto.
           ++ eapply rotatedShape_selfAfter; eassumption.
           ++ assumption.
      * destruct IHr as (res & -> & He & Hi & _ & Hd). simpl.
        set (node' := Node k d s c l (newNode res)).
        destruct (balance_cases node') as [[E Hb]|(rot & t' & E & Hs & Hb)];
          rewrite Hb, E; simpl.
        -- eexists. split; [reflexivity|]. simpl. rewrite He.
           unfold nearSubtree. repeat split; auto.
           all: try tauto.
        -- eexists. split; [reflexivity|]. simpl.
           rewrite (rotatedShape_entries _ _ Hs). simpl. rewrite He.
           split; [reflexivity|]. split; [|split].
           ++ intros (_ & Hl & Hr).
              eapply rotatedShape_invariant; [eassumption| |]; simpl; auto.
           ++ eapply rotatedShape_selfAfter; eassumption.
           ++ assumption.
Qed.

End UpdateFacts.

(** ** Key order *)

Section OrderFacts.

Context {K : Type} {KO : JsKey K} {D : Type}.

Implicit Types (t node : tree K D) (a b k : K).

Lemma ltb_asym a b : ltb a b = true -> ltb b a = false.
Proof.
  intros Hab. destruct (ltb b a) eqn:Hba; [|reflexivity].
  pose proof (ltb_trans _ _ _ Hab Hba) as H.
  now rewrite ltb_irrefl in H.
Qed.

Lemma key_le_refl a : key_le a a.
Proof. apply ltb_irrefl. Qed.

Lemma key_le_of_lt a b : ltb a b = true -> key_le a b.
Proof. apply ltb_asym. Qed.

Lemma key_le_trans a b (c : K) : key_le a b -> key_le b c -> key_le a c.
Proof.
  unfold key_le. intros Hab Hbc.
  destruct (ltb c a) eqn:Hca; [|reflexivity].
  destruct (ltb a b) eqn:Hab'.
  - pose proof (ltb_trans _ _ _ Hca Hab') as H. congruence.
  - pose proof (ltb_total _ _ Hab' Hab) as ->. congruence.
Qed.

Lemma key_lt_le_trans a b (c : K) : ltb a b = true -> key_le b c -> ltb a c = true.
Proof.
  unfold key_le. intros Hab Hbc.
  destruct (ltb b c) eqn:E.
  - eapply ltb_trans; eassumption.
  - now rewrite <- (ltb_total _ _ E Hbc).
Qed.

Lemma key_le_lt_trans a b (c : K) : key_le a b -> ltb b c = true -> ltb a c = true.
Proof.
  unfold key_le. intros Hab Hbc.
  destruct (ltb a b) eqn:E.
  - eapply ltb_trans; eassumption.
  - now rewrite (ltb_total _ _ E Hab).
Qed.

Lemma eqb_refl_key a : eqb a a = true.
Proof. now apply eqb_eq. Qed.

Lemma eqb_false_iff a b : eqb a b = false <-> a <> b.
Proof.
  split.
  - intros H E. apply eqb_eq in E. congruence.
  - intros H. destruct (eqb a b) eqn:E; [|reflexivity].
    apply eqb_eq in E. contradiction.
Qed.

(** Sortedness of a concatenation. *)
Lemma StronglySorted_app_iff (l1 l2 : list K) :
  StronglySorted key_le (l1 ++ l2) <->
  StronglySorted key_le l1 /\ StronglySorted key_le l2 /\
  (forall a b, In a l1 -> In b l2 -> key_le a b).
Proof.
  induction l1 as [|x l1 IH]; simpl.
  - split.
    + intros H. repeat split; [constructor|assumption|tauto].
    + tauto.
  - split.
    + intros H. inversion H as [|? ? Hs Hf]; subst.
      apply IH in Hs. destruct Hs as (H1 & H2 & H12).
      rewrite Forall_app in Hf. destruct Hf as [Hf1 Hf2].
      repeat split; [constructor; assumption|assumption|].
      intros a b [->|Ha] Hb.
      * rewrite Forall_forall in Hf2. now apply Hf2.
      * now apply H12.
    + intros (H1 & H2 & H12). inversion H1 as [|? ? Hs Hf]; subst.
      constructor.
      * apply IH. repeat split; auto.
      * rewrite Forall_app. split; [assumption|].
        rewrite Forall_forall. intros b Hb. apply H12; auto.
Qed.

Lemma ordered_iff t : ordered t <-> sortedKeys (keys t).
Proof.
  unfold ordered, sortedKeys. split.
  - apply Sorted_StronglySorted. intros a b c. apply key_le_trans.
  - apply StronglySorted_Sorted.
Qed.

Lemma keys_Node k (d : D) s c (l r : tree K D) :
  keys (Node k d s c l r) = keys l ++ k :: keys r.
Proof. unfold keys. simpl. now rewrite map_app. Qed.

Lemma sortedKeys_mid (l1 l2 : list K) k :
  sortedKeys (l1 ++ k :: l2) <->
  sortedKeys l1 /\ sortedKeys l2 /\
  (forall a, In a l1 -> key_le a k) /\ (forall b, In b l2 -> key_le k b).
Proof.
  unfold sortedKeys. rewrite StronglySorted_app_iff. split.
  - intros (H1 & H2 & H12). inversion H2 as [|? ? Hs Hf]; subst.
    rewrite Forall_forall in Hf. repeat split; auto.
    intros a Ha. apply H12; simpl; auto.
  - intros (H1 & H2 & Hl & Hr). repeat split; auto.
    + constructor; [assumption|]. now rewrite Forall_forall.
    + intros a b Ha [<-|Hb]; [auto|].
      eapply key_le_trans; eauto.
Qed.

Lemma ordered_Node k (d : D) s c (l r : tree K D) :
  ordered (Node k d s c l r) <->
  ordered l /\ ordered r /\
  (forall a, In a (keys l) -> key_le a k) /\
  (forall b, In b (keys r) -> key_le k b).
Proof.
  rewrite !ordered_iff, keys_Node. apply sortedKeys_mid.
Qed.

Lemma ordered_Null : ordered (@Null K D).
Proof. constructor. Qed.

Lemma ordered_nearSubtree s t :
  nearSubtree s t -> ordered t -> ordered s.
Proof.
  intros [->|[->| ->]] H; [assumption| |];
    (destruct t; [exact H|]); apply ordered_Node in H; tauto.
Qed.

Lemma invariant_nearSubtree s t :
  nearSubtree s t -> invariant t -> invariant s.
Proof.
  intros [->|[->| ->]] H; [assumption| |];
    (destruct t; [exact H|]); simpl in *; tauto.
Qed.

End OrderFacts.

Section MutatorOrder.

Context {K : Type} {KO : JsKey K} {D : Type}.

Implicit Types (t node : tree K D) (k key : K).

Lemma insertEntries_keys_In t key (data : D) credit x :
  In x (map entryKey (insertEntries t key data credit)) ->
  x = key \/ In x (keys t).
Proof.
  induction t as [|k d s c l IHl r IHr]; simpl.
  - intros [<-|[]]. now left.
  - rewrite keys_Node.
    destruct (ltb key k); rewrite map_app, in_app_iff; simpl;
      rewrite in_app_iff; simpl; unfold keys in *; intuition.
Qed.

Lemma insertEntries_sorted t key (data : D) credit :
  ordered t -> sortedKeys (map entryKey (insertEntries t key data credit)).
Proof.
  induction t as [|k d s c l IHl r IHr]; simpl.
  - intros _. repeat constructor.
  - intros H. apply ordered_Node in H. destruct H as (Hl & Hr & Hlk & Hkr).
    destruct (ltb key k) eqn:E; rewrite map_app; simpl;
      apply sortedKeys_mid.
    + repeat split; auto.
      * now apply ordered_iff.
      * intros a Ha. apply insertEntries_keys_In in Ha.
        destruct Ha as [->|Ha]; [now apply key_le_of_lt|auto].
    + repeat split; auto.
      * now apply ordered_iff.
      * intros b Hb. apply insertEntries_keys_In in Hb.
        destruct Hb as [->|Hb]; [exact E|auto].
Qed.

Lemma deleteEntries_keys_In t : forall key x,
  In x (map entryKey (deleteEntries t key)) -> In x (keys t).
Proof.
  induction t as [|k d s c l IHl r IHr]; intros key x; simpl; [tauto|].
  rewrite keys_Node, in_app_iff. simpl.
  destruct (ltb key k); [|destruct (ltb k key)].
  - rewrite map_app, in_app_iff. simpl.
    intros [H|[H|H]]; [left; eauto|now right; left|now right; right].
  - rewrite map_app, in_app_iff. simpl.
    intros [H|[H|H]]; [now left|now right; left|right; right; eauto].
  - destruct l as [|lk ld ls lc ll lr]; [intros H; now right; right|].
    destruct r as [|rk rd rs rc rl rr]; [intros H; now left|].
    destruct (@minLargerNode_first _ _ (Node rk rd rs rc rl rr))
      as (mk & md & ms & mc & ml & mr & rest & Hm & He); [discriminate|].
    rewrite Hm, map_app, in_app_iff. simpl.
    intros [H|[H|H]].
    + now left.
    + right. right. unfold keys. rewrite He. simpl. now left.
    + right. right. apply (IHr mk). exact H.
Qed.

Lemma deleteEntries_sorted t : forall key,
  ordered t -> sortedKeys (map entryKey (deleteEntries t key)).
Proof.
  induction t as [|k d s c l IHl r IHr]; intros key; simpl.
  - intros _. constructor.
  - intros H. apply ordered_Node in H. destruct H as (Hl & Hr & Hlk & Hkr).
    pose proof (proj1 (ordered_iff _) Hl) as Hl'.
    pose proof (proj1 (ordered_iff _) Hr) as Hr'.
    destruct (ltb key k); [|destruct (ltb k key)].
    + rewrite map_app. simpl. apply sortedKeys_mid. repeat split; auto.
      intros a Ha. apply deleteEntries_keys_In in Ha. auto.
    + rewrite map_app. simpl. apply sortedKeys_mid. repeat split; auto.
      intros b Hb. apply deleteEntries_keys_In in Hb. auto.
    + destruct l as [|lk ld ls lc ll lr]; [exact Hr'|].
      destruct r as [|rk rd rs rc rl rr]; [exact Hl'|].
      destruct (@minLargerNode_first _ _ (Node rk rd rs rc rl rr))
        as (mk & md & ms & mc & ml & mr & rest & Hm & He); [discriminate|].
      rewrite Hm, map_app. simpl map. apply sortedKeys_mid.
      assert (Hmk : In mk (keys (Node rk rd rs rc rl rr))).
      { unfold keys. rewrite He. simpl. now left. }
      assert (Hmin : forall b, In b (keys (Node rk rd rs rc rl rr)) ->
                               key_le mk b).
      { unfold sortedKeys, keys in *. rewrite He in *.
        simpl in *. inversion Hr' as [|? ? _ Hf]; subst.
        rewrite Forall_forall in Hf.
        intros b [<-|Hb]; [apply key_le_refl|auto]. }
      split; [exact Hl'|]. split; [now apply IHr|]. split.
      * intros a Ha. eapply key_le_trans; [apply Hlk, Ha|auto].
      * intros b Hb. apply Hmin.
        exact (deleteEntries_keys_In (Node rk rd rs rc rl rr) mk b Hb).
Qed.

Lemma updateEntries_keys t key newCredit :
  map entryKey (updateEntries t key newCredit) = keys t.
Proof.
  induction t as [|k d s c l IHl r IHr]; simpl; [reflexivity|].
  rewrite keys_Node.
  destruct (eqb k key); [|destruct (ltb key k)];
    rewrite map_app; simpl; unfold keys in *;
    rewrite ?IHl, ?IHr; reflexivity.
Qed.

Lemma insertNode_ordered t key (data : D) credit t' :
  insertNode t key data credit = Some t' -> ordered t -> ordered t'.
Proof.
  intros H Ho.
  destruct (insertNode_spec t key data credit) as (t2 & H2 & He & _).
  assert (t2 = t') as -> by congruence.
  apply ordered_iff. unfold keys. rewrite He.
  now apply insertEntries_sorted.
Qed.

Lemma deleteNode_ordered t key t' :
  deleteNode t key = Some t' -> ordered t -> ordered t'.
Proof.
  intros H Ho.
  destruct (deleteNode_spec t key) as (t2 & H2 & He & _).
  assert (t2 = t') as -> by congruence.
  apply ordered_iff. unfold keys. rewrite He.
  now apply deleteEntries_sorted.
Qed.

Lemma updateCreditRecursive_ordered t key newCredit res :
  updateCreditRecursive t key newCredit = Some res ->
  ordered t -> ordered (newNode res) /\ ordered (self res).
Proof.
  intros H Ho.
  destruct (updateCreditRecursive_spec t key newCredit)
    as (res2 & H2 & He & _ & Hn & _).
  assert (res2 = res) as -> by congruence.
  assert (Hnew : ordered (newNode res)).
  { unfold ordered, keys. rewrite He, updateEntries_keys. exact Ho. }
  split; [assumption|]. eapply ordered_nearSubtree; eassumption.
Qed.

End MutatorOrder.

(** ** Sequences of operations *)

Section RunFacts.

Context {K : Type} {KO : JsKey K} {D : Type}.

Implicit Types (t node : tree K D) (this : CreditBalancedBST K D)
  (o : operation K D) (ops : list (operation K D)).

Lemma perform_spec this o :
  exists this', perform this o = Some this' /\
                (invariant (root this) -> invariant (root this')) /\
                (ordered (root this) -> ordered (root this')).
Proof.
  destruct this as [t]. destruct o as [key data credit|key|key newCredit];
    simpl.
  - unfold insert. simpl.
    destruct (insertNode_spec t key data credit) as (t' & H & _ & Hi).
    rewrite H. simpl. eexists. split; [reflexivity|]. simpl.
    split; [assumption|]. now apply insertNode_ordered with (1 := H).
  - unfold delete. simpl.
    destruct (deleteNode_spec t key) as (t' & H & _ & Hi).
    rewrite H. simpl. eexists. split; [reflexivity|]. simpl.
    split; [assumption|]. now apply deleteNode_ordered with (1 := H).
  - unfold updateCreditByKey. simpl.
    destruct (updateCreditRecursive_spec t key newCredit)
      as (res & H & _ & Hi & Hn & _).
    rewrite H. simpl. eexists. split; [reflexivity|]. simpl. split.
    + intros Ht. eapply invariant_nearSubtree; eauto.
    + intros Ht. eapply updateCreditRecursive_ordered; eassumption.
Qed.

Lemma performAll_spec ops : forall this,
  invariant (root this) -> ordered (root this) ->
  exists this', performAll this ops = Some this' /\
                invariant (root this') /\ ordered (root this').
Proof.
  induction ops as [|o ops IH]; intros this Hi Ho; simpl.
  - now exists this.
  - destruct (perform_spec this o) as (this1 & -> & Hi1 & Ho1). simpl.
    apply IH; auto.
Qed.

Lemma run_spec ops :
  exists this, run ops = Some this /\
               invariant (root this) /\ ordered (root this).
Proof.
  apply performAll_spec; simpl; [exact I|apply ordered_Null].
Qed.

Lemma run_invariant ops this :
  run ops = Some this -> invariant (root this) /\ ordered (root this).
Proof.
  intros H. destruct (run_spec ops) as (this' & H' & Hi).
  assert (this' = this) as -> by congruence. exact Hi.
Qed.

Lemma invariant_nodes t :
  invariant t <-> forall node, In node (nodes t) -> sumOk node.
Proof.
  induction t as [|k d s c l IHl r IHr]; simpl.
  - split; [intros _ node []|trivial].
  - rewrite IHl, IHr. split.
    + intros (H & Hl & Hr) node Hn. apply in_app_iff in Hn.
      destruct Hn as [Hn|[<-|Hn]]; auto.
    + intros H. repeat split.
      * apply H. apply in_app_iff. right. now left.
      * intros node Hn. apply H. apply in_app_iff. now left.
      * intros node Hn. apply H. apply in_app_iff. right. now right.
Qed.

Lemma sumOk_checkSumError node : sumOk node -> checkSumError node = false.
Proof.
  unfold sumOk, checkSumError. intros ->. apply Z.ltb_ge. lia.
Qed.

Lemma sumCredits_app (es1 es2 : list (@entry K D)) :
  sumCredits (es1 ++ es2) = sumCredits es1 + sumCredits es2.
Proof.
  induction es1 as [|e es1 IH]; simpl; [reflexivity|]. rewrite IH. lia.
Qed.

(** Under the invariant the aggregate of a subtree is the sum of the
    credits of its nodes. *)
Lemma getCreditSum_sum t :
  invariant t -> getCreditSum t = sumCredits (entries t).
Proof.
  induction t as [|k d s c l IHl r IHr]; simpl; [reflexivity|].
  intros (H & Hl & Hr). unfold sumOk in H. simpl in H.
  rewrite sumCredits_app. simpl.
  change (entryCredit (k, d, c)) with c.
  rewrite <- IHl, <- IHr by assumption. lia.
Qed.

(** An absent key: the comparison descent falls off the tree. *)




End RunFacts.

(** ** The rebalancing policy, the aggregate invariant and the key order *)

Section MainInvariants.

Context {K : Type} {KO : JsKey K} {D : Type}.

(** C5.  The rebalancing step, for every subtree root [t]:
    - the four candidate costs are those of the cost table, a candidate
      whose required node is missing costing [MAX_VALUE];
    - no rotation is selected exactly when no candidate has a cost below
      the baseline 0, and [balance] then returns [t] itself;
    - a candidate is selected exactly when its cost is a number below 0,
      no candidate costs less, and every candidate scanned before it in
      the order RR, RL, LL, LR costs strictly more (ties keep the
      earliest candidate);
    - [balance] then returns the subtree built by the selected single or
      double rotation, which always exists.
    Costs are compared in the order of the integers. *)
Theorem balance_policy (t : tree K D) :
  (forall r, calculateCost t r = costTable r t) /\
  (bestRotation t = None <->
   forall r z, calculateCost t r = Finite z -> 0 <= z) /\
  (bestRotation t = None -> balance t = Some t) /\
  (forall r, bestRotation t = Some r <-> cheapest t r) /\
  (forall r, bestRotation t = Some r ->
             exists t', rotatedShape r t = Some t' /\ balance t = Some t').
Proof.
  split; [intros r; apply calculateCost_table|].
  split; [apply bestRotation_None_integers|].
  split.
  { intros E. destruct (balance_cases t) as [[_ H]|(rot & t' & E' & _)];
      [assumption|congruence]. }
  split; [intros r; rewrite bestRotation_Some; apply winner_cheapest|].
  intros r E.
  destruct (balance_cases t) as [[E' _]|(rot & t' & E' & Hs & Hb)];
    [congruence|].
  assert (rot = r) as -> by congruence. now exists t'.
Qed.

(** C1.  Starting from an empty structure, every sequence of [insert],
    [delete] and [updateCreditByKey] calls runs without throwing, and in
    the structure it leaves every node reachable from the root satisfies
    [creditSum = credit + creditSum(left) + creditSum(right)], an absent
    child counting for 0; the diagnostic with tolerance 1e-4 stays
    silent. *)
Theorem aggregate_invariant_maintained (ops : list (operation K D)) :
  exists this,
    run ops = Some this /\
    forall node, In node (nodes (root this)) ->
      getCreditSum node
      = creditOf node + getCreditSum (leftOf node) + getCreditSum (rightOf node)
      /\ checkSumError node = false.
Proof.
  destruct (run_spec ops) as (this & Hrun & Hinv & _).
  exists this. split; [assumption|].
  intros node Hn.
  pose proof (proj1 (invariant_nodes _) Hinv node Hn) as Hs.
  split; [exact Hs|now apply sumOk_checkSumError].
Qed.

(** C10.  Starting from an empty structure, every sequence of [insert],
    [delete] and [updateCreditByKey] calls leaves a tree whose keys, read
    in symmetric order, never decrease; [rotateLeft] and [rotateRight]
    keep the symmetric-order sequence of nodes, hence their multiset. *)
Theorem search_order_preserved :
  (forall ops : list (operation K D),
     exists this, run ops = Some this /\ Sorted key_le (keys (root this))) /\
  (forall x t : tree K D,
     rotateLeft x = Some t ->
     entries t = entries x /\ Permutation (entries t) (entries x)) /\
  (forall y t : tree K D,
     rotateRight y = Some t ->
     entries t = entries y /\ Permutation (entries t) (entries y)).
Proof.
  split; [|split].
  - intros ops. destruct (run_spec ops) as (this & Hrun & _ & Ho).
    now exists this.
  - intros x t H. rewrite rotateLeft_shape in H.
    apply rotatedShape_entries in H. rewrite H. split; reflexivity.
  - intros y t H. rewrite rotateRight_shape in H.
    apply rotatedShape_entries in H. rewrite H. split; reflexivity.
Qed.

End MainInvariants.

(** ** Cumulative-credit lookup *)

Section CreditLookup.

Context {K : Type} {KO : JsKey K} {D : Type}.

Implicit Types (t node : tree K D).











End CreditLookup.

Section CreditLookupClaim.

Context {K : Type} {KO : JsKey K} {D : Type}.


End CreditLookupClaim.



(** ** Exact-key lookup *)

Section KeyLookup.

Context {K : Type} {KO : JsKey K} {D : Type}.

Implicit Types (t node : tree K D) (key k : K).

Lemma filter_none {A : Type} (f : A -> bool) (l : list A) :
  (forall x, In x l -> f x = false) -> filter f l = [].
Proof.
  induction l as [|x l IH]; simpl; intros H; [reflexivity|].
  rewrite (H x) by now left. apply IH. intros y Hy. apply H. now right.
Qed.

Lemma nodes_keys t node :
  In node (nodes t) ->
  exists k d s c l r, node = Node k d s c l r /\ In k (keys t).
Proof.
  induction t as [|k d s c l IHl r IHr]; [intros []|].
  change (nodes (Node k d s c l r)) with (nodes l ++ [Node k d s c l r] ++ nodes r).
  rewrite !in_app_iff. intros [H|[[<-|[]]|H]].
  - destruct (IHl H) as (k' & d' & s' & c' & l' & r' & -> & Hk).
    eexists _, _, _, _, _, _. split; [reflexivity|].
    rewrite keys_Node, in_app_iff. now left.
  - eexists _, _, _, _, _, _. split; [reflexivity|].
    rewrite keys_Node, in_app_iff. right. now left.
  - destruct (IHr H) as (k' & d' & s' & c' & l' & r' & -> & Hk).
    eexists _, _, _, _, _, _. split; [reflexivity|].
    rewrite keys_Node, in_app_iff. right. now right.
Qed.

Lemma keyIs_below t key k :
  ltb key k = true -> (forall b, In b (keys t) -> key_le k b) ->
  forall node, In node (nodes t) -> keyIs key node = false.
Proof.
  intros Hlt Hle node Hn.
  apply nodes_keys in Hn.
  destruct Hn as (k' & d' & s' & c' & l' & r' & -> & Hk).
  simpl. apply eqb_false_iff. intros ->.
  assert (H : ltb key key = true).
  { eapply key_lt_le_trans; [exact Hlt|]. now apply Hle. }
  now rewrite ltb_irrefl in H.
Qed.

Lemma keyIs_above t key k :
  ltb k key = true -> (forall a, In a (keys t) -> key_le a k) ->
  forall node, In node (nodes t) -> keyIs key node = false.
Proof.
  intros Hlt Hle node Hn.
  apply nodes_keys in Hn.
  destruct Hn as (k' & d' & s' & c' & l' & r' & -> & Hk).
  simpl. apply eqb_false_iff. intros ->.
  assert (H : ltb key key = true).
  { eapply key_le_lt_trans; [|exact Hlt]. now apply Hle. }
  now rewrite ltb_irrefl in H.
Qed.

(** On an ordered tree the lookup returns the nodes carrying the key, in
    symmetric order. *)
Lemma findNodesByKeyHelper_ordered t key :
  ordered t -> findNodesByKeyHelper t key = filter (keyIs key) (nodes t).
Proof.
  induction t as [|k d s c l IHl r IHr]; [reflexivity|].
  intros H. apply ordered_Node in H. destruct H as (Hl & Hr & Hlk & Hkr).
  change (nodes (Node k d s c l r)) with (nodes l ++ [Node k d s c l r] ++ nodes r).
  rewrite !filter_app.
  change (findNodesByKeyHelper (Node k d s c l r) key)
    with (if ltb key k then findNodesByKeyHelper l key
          else if ltb k key then findNodesByKeyHelper r key
          else findNodesByKeyHelper l key ++ [Node k d s c l r]
                 ++ findNodesByKeyHelper r key).
  change (filter (keyIs key) [Node k d s c l r])
    with (if eqb k key then [Node k d s c l r] else []).
  destruct (ltb key k) eqn:E1; [|destruct (ltb k key) eqn:E2].
  - rewrite (filter_none (keyIs key) (nodes r))
      by (eapply keyIs_below; eassumption).
    assert (eqb k key = false) as ->.
    { apply eqb_false_iff. intros ->. now rewrite ltb_irrefl in E1. }
    rewrite IHl by assumption. now rewrite !app_nil_r.
  - rewrite (filter_none (keyIs key) (nodes l))
      by (eapply keyIs_above; eassumption).
    assert (eqb k key = false) as ->.
    { apply eqb_false_iff. intros ->. now rewrite ltb_irrefl in E2. }
    now rewrite IHr.
  - assert (eqb k key = true) as ->.
    { apply eqb_eq. symmetry. now apply ltb_total. }
    now rewrite IHl, IHr.
Qed.

Lemma filter_nodes_entries key t :
  map (@entryOf K D) (filter (keyIs key) (nodes t))
  = map Some (filter (fun e => eqb (entryKey e) key) (entries t)).
Proof.
  induction t as [|k d s c l IHl r IHr]; [reflexivity|].
  change (nodes (Node k d s c l r)) with (nodes l ++ [Node k d s c l r] ++ nodes r).
  change (entries (Node k d s c l r)) with (entries l ++ [(k, d, c)] ++ entries r).
  rewrite !filter_app, !map_app, IHl, IHr. f_equal. f_equal.
  simpl. change (entryKey (k, d, c)) with k. now destruct (eqb k key).
Qed.

Lemma filter_entries_absent t key :
  ~ hasKey t key -> filter (fun e => eqb (entryKey e) key) (entries t) = [].
Proof.
  intros H. apply filter_none. intros e He. apply eqb_false_iff. intros <-.
  apply H. unfold hasKey, keys. now apply in_map.
Qed.

Lemma filter_insertEntries t key (data : D) credit :
  ~ hasKey t key ->
  filter (fun e => eqb (entryKey e) key) (insertEntries t key data credit)
  = [(key, data, credit)].
Proof.
  unfold hasKey.
  induction t as [|k d s c l IHl r IHr]; intros H.
  - simpl. change (entryKey (key, data, credit)) with key.
    now rewrite eqb_refl_key.
  - rewrite keys_Node, in_app_iff in H. simpl in H.
    assert (Hk : eqb k key = false) by (apply eqb_false_iff; tauto).
    simpl. destruct (ltb key k); rewrite !filter_app; simpl;
      change (entryKey (k, d, c)) with k; rewrite Hk.
    + rewrite IHl by tauto. rewrite filter_entries_absent; [reflexivity|].
      unfold hasKey. tauto.
    + rewrite IHr by tauto. rewrite filter_entries_absent; [reflexivity|].
      unfold hasKey. tauto.
Qed.

(** C8.  On a structure reached from the empty one that does not contain
    [key], [insert(key, data, credit)] succeeds and [findNodesByKey(key)]
    then returns exactly one node, which carries [key], [data] and
    [credit]. *)
Theorem insert_findNodesByKey_round_trip
  (ops : list (operation K D)) (this : CreditBalancedBST K D)
  (key : K) (data : D) (credit : Z) :
  run ops = Some this ->
  ~ hasKey (root this) key ->
  exists this' node,
    insert this key data credit = Some this' /\
    findNodesByKey this' key = [node] /\
    keyOf node = Some key /\ dataOf node = Some data /\
    creditOf node = credit.
Proof.
  intros Hrun Habs.
  assert (Ho : ordered (root this)) by (eapply run_invariant; eassumption).
  destruct this as [t]. simpl in *.
  destruct (insertNode_spec t key data credit) as (t' & Hins & He & _).
  assert (Ho' : ordered t') by (eapply insertNode_ordered; eassumption).
  pose proof (filter_nodes_entries key t') as Hf.
  rewrite He, filter_insertEntries in Hf by assumption.
  rewrite <- findNodesByKeyHelper_ordered in Hf by assumption.
  destruct (findNodesByKeyHelper t' key) as [|node [|node' rest]] eqn:Efind;
    try discriminate.
  simpl in Hf. injection Hf as Hf.
  exists {| root := t' |}, node.
  unfold insert, findNodesByKey. simpl. rewrite Hins, Efind.
  split; [reflexivity|]. split; [reflexivity|].
  destruct node; [discriminate|]. simpl in *.
  injection Hf as -> -> ->. auto.
Qed.

End KeyLookup.

Lemma insert_findNodesByKey_round_trip_witness :
  exists this' node,
    insert Examples.readmeTree "user4"%string "Dora"%string 5 = Some this' /\
    findNodesByKey this' "user4"%string = [node] /\
    keyOf node = Some "user4"%string /\ dataOf node = Some "Dora"%string /\
    creditOf node = 5.
Proof.
  apply (insert_findNodesByKey_round_trip Examples.readmeOps).
  - reflexivity.
  - vm_compute. intuition discriminate.
Defined.

(** ** Prefix lookup *)

Section PrefixLookup.

Context {D : Type}.

Implicit Types (t node : tree string D) (p k x : string).

Lemma prefix_empty k : String.prefix "" k = true.
Proof. destruct k; reflexivity. Qed.

Lemma prefix_cons a p b k :
  String.prefix (String a p) (String b k) = true <->
  a = b /\ String.prefix p k = true.
Proof.
  simpl. destruct (ascii_dec a b) as [->|Hne].
  - tauto.
  - split; [discriminate|]. intros [E _]. contradiction.
Qed.

(** A key that is above the prefix without starting with it is above
    every string that starts with it. *)
Lemma prefix_below p : forall k x,
  String.prefix p k = false -> String.ltb p k = true ->
  String.prefix p x = true -> String.ltb x k = true.
Proof.
  unfold String.ltb.
  induction p as [|a p IH]; intros k x Hk Hlt Hx.
  - now rewrite prefix_empty in Hk.
  - destruct x as [|a' x]; [discriminate|].
    apply prefix_cons in Hx. destruct Hx as [<- Hx].
    destruct k as [|b k]; [discriminate|].
    simpl in Hlt |- *.
    destruct (Ascii.compare a b) eqn:E; try discriminate; [|reflexivity].
    apply Ascii.compare_eq_iff in E. subst b.
    simpl in Hk. destruct (ascii_dec a a) as [_|Hne]; [|contradiction].
    now apply IH.
Qed.

(** A key that is not above the prefix and does not start with it is
    below every string that starts with it. *)
Lemma prefix_above p : forall k x,
  String.prefix p k = false -> String.ltb p k = false ->
  String.prefix p x = true -> String.ltb k x = true.
Proof.
  unfold String.ltb.
  induction p as [|a p IH]; intros k x Hk Hlt Hx.
  - now rewrite prefix_empty in Hk.
  - destruct x as [|a' x]; [discriminate|].
    apply prefix_cons in Hx. destruct Hx as [<- Hx].
    destruct k as [|b k]; [reflexivity|].
    simpl in Hlt |- *. rewrite (Ascii.compare_antisym b a).
    destruct (Ascii.compare a b) eqn:E; simpl; try discriminate;
      [|reflexivity].
    apply Ascii.compare_eq_iff in E. subst b.
    simpl in Hk. destruct (ascii_dec a a) as [_|Hne]; [|contradiction].
    now apply IH.
Qed.

Lemma preorder_keys t node :
  In node (preorder t) ->
  exists k d s c l r, node = Node k d s c l r /\ In k (keys t).
Proof.
  induction t as [|k d s c l IHl r IHr]; [intros []|].
  change (preorder (Node k d s c l r))
    with ([Node k d s c l r] ++ preorder l ++ preorder r).
  rewrite !in_app_iff. intros [[<-|[]]|[H|H]].
  - eexists _, _, _, _, _, _. split; [reflexivity|].
    rewrite keys_Node, in_app_iff. right. now left.
  - destruct (IHl H) as (k' & d' & s' & c' & l' & r' & -> & Hk).
    eexists _, _, _, _, _, _. split; [reflexivity|].
    rewrite keys_Node, in_app_iff. now left.
  - destruct (IHr H) as (k' & d' & s' & c' & l' & r' & -> & Hk).
    eexists _, _, _, _, _, _. split; [reflexivity|].
    rewrite keys_Node, in_app_iff. right. now right.
Qed.

Lemma preorder_nodes t : Permutation (preorder t) (nodes t).
Proof.
  induction t as [|k d s c l IHl r IHr]; [constructor|].
  change (preorder (Node k d s c l r))
    with (Node k d s c l r :: preorder l ++ preorder r).
  change (nodes (Node k d s c l r))
    with (nodes l ++ Node k d s c l r :: nodes r).
  apply Permutation_cons_app. now apply Permutation_app.
Qed.

(** On an ordered tree the helper appends the nodes whose key starts with
    the prefix, parent first. *)
Lemma findNodesByPrefixHelper_ordered t p :
  ordered t ->
  forall results,
    findNodesByPrefixHelper t p results
    = results ++ filter (startsWith p) (preorder t).
Proof.
  induction t as [|k d s c l IHl r IHr]; intros H results.
  - simpl. now rewrite app_nil_r.
  - apply ordered_Node in H. destruct H as (Hl & Hr & Hlk & Hkr).
    change (preorder (Node k d s c l r))
      with ([Node k d s c l r] ++ preorder l ++ preorder r).
    rewrite !filter_app.
    change (filter (startsWith p) [Node k d s c l r])
      with (if String.prefix p k then [Node k d s c l r] else []).
    simpl findNodesByPrefixHelper.
    assert (Hcond : ((p =? "")%string || String.prefix p k)%bool
                    = String.prefix p k).
    { destruct (String.eqb_spec p ""%string) as [->|_]; [|reflexivity].
      now rewrite prefix_empty. }
    rewrite Hcond.
    destruct (String.prefix p k) eqn:Ep.
    + rewrite IHr, IHl by assumption. now rewrite <- !app_assoc.
    + destruct (String.ltb p k) eqn:Elt.
      * rewrite IHl by assumption.
        rewrite (filter_none (startsWith p) (preorder r)).
        { now rewrite app_nil_r. }
        intros node Hn. apply preorder_keys in Hn.
        destruct Hn as (k' & d' & s' & c' & l' & r' & -> & Hk).
        simpl. destruct (String.prefix p k') eqn:Ep'; [|reflexivity].
        pose proof (prefix_below _ _ _ Ep Elt Ep') as Hlt.
        specialize (Hkr _ Hk). unfold key_le in Hkr. simpl in Hkr.
        congruence.
      * rewrite IHr by assumption.
        rewrite (filter_none (startsWith p) (preorder l)).
        { reflexivity. }
        intros node Hn. apply preorder_keys in Hn.
        destruct Hn as (k' & d' & s' & c' & l' & r' & -> & Hk).
        simpl. destruct (String.prefix p k') eqn:Ep'; [|reflexivity].
        pose proof (prefix_above _ _ _ Ep Elt Ep') as Hlt.
        specialize (Hlk _ Hk). unfold key_le in Hlk. simpl in Hlk.
        congruence.
Qed.

(** C7.  On a structure with string keys reached from the empty one,
    [findNodesByPrefix(p)] returns exactly the nodes whose key starts with
    [p] (each once, parent before children); without argument, or with
    the empty prefix, it returns every node; with a prefix that no key
    starts with it returns an empty sequence. *)
Theorem findNodesByPrefix_exact
  (ops : list (operation string D)) (this : CreditBalancedBST string D) :
  run ops = Some this ->
  (forall p, findNodesByPrefix this (Some p)
             = filter (startsWith p) (preorder (root this))) /\
  (forall p node, In node (findNodesByPrefix this (Some p)) <->
                  In node (nodes (root this)) /\ startsWith p node = true) /\
  Permutation (findNodesByPrefix this None) (nodes (root this)) /\
  Permutation (findNodesByPrefix this (Some ""%string)) (nodes (root this)) /\
  (forall p, (forall node, In node (nodes (root this)) ->
                           startsWith p node = false) ->
             findNodesByPrefix this (Some p) = []).
Proof.
  intros Hrun.
  assert (Ho : ordered (root this)) by (eapply run_invariant; eassumption).
  assert (Hfilter : forall p, findNodesByPrefix this (Some p)
                              = filter (startsWith p) (preorder (root this))).
  { intros p. unfold findNodesByPrefix.
    now rewrite findNodesByPrefixHelper_ordered. }
  assert (Hall : filter (startsWith "") (preorder (root this))
                 = preorder (root this)).
  { apply forallb_filter_id. apply forallb_forall. intros node Hn.
    apply preorder_keys in Hn.
    destruct Hn as (k' & d' & s' & c' & l' & r' & -> & _).
    apply prefix_empty. }
  split; [exact Hfilter|]. split; [|split; [|split]].
  - intros p node. rewrite Hfilter, filter_In.
    split; intros [Hn Hs]; (split; [|assumption]).
    + eapply Permutation_in; [apply preorder_nodes|assumption].
    + eapply Permutation_in; [apply Permutation_sym, preorder_nodes|assumption].
  - change (findNodesByPrefix this None)
      with (findNodesByPrefix this (Some ""%string)).
    rewrite Hfilter, Hall. apply preorder_nodes.
  - rewrite Hfilter, Hall. apply preorder_nodes.
  - intros p Hnone. rewrite Hfilter. apply filter_none.
    intros node Hn. apply Hnone.
    eapply Permutation_in; [apply preorder_nodes|assumption].
Qed.

End PrefixLookup.

Lemma findNodesByPrefix_exact_witness :
  findNodesByPrefix Examples.readmeTree (Some "user"%string)
  = preorder (root Examples.readmeTree) /\
  findNodesByPrefix Examples.readmeTree (Some "zzz"%string) = [].
Proof.
  destruct (@findNodesByPrefix_exact string Examples.readmeOps
              Examples.readmeTree eq_refl) as (H & _ & _ & _ & Hnone).
  split.
  - rewrite H. reflexivity.
  - apply Hnone. intros node Hn. simpl in Hn.
    destruct Hn as [<-|[<-|[<-|[]]]]; reflexivity.
Defined.

(** ** Absent keys *)

Section AbsentKey.

Context {K : Type} {KO : JsKey K} {D : Type}.


End AbsentKey.



(** ** Credit update at the root *)

Section UpdateTotal.

Context {K : Type} {KO : JsKey K} {D : Type}.

Lemma sumCredits_updateEntries (t : tree K D) key newCredit old :
  oldCredit t key = Some old ->
  sumCredits (updateEntries t key newCredit)
  = sumCredits (entries t) + (newCredit - old).
Proof.
  induction t as [|k d s c l IHl r IHr]; simpl; [discriminate|].
  destruct (eqb k key).
  - intros [= ->]. rewrite !sumCredits_app. simpl.
    change (entryCredit (k, d, newCredit)) with newCredit.
    change (entryCredit (k, d, old)) with old. lia.
  - destruct (ltb key k); intros Hold; rewrite !sumCredits_app; simpl;
      [rewrite (IHl Hold)|rewrite (IHr Hold)]; lia.
Qed.

(** The subtree returned by the recursive update has the expected total;
    it is the assignment of this subtree to the root slot that the public
    method leaves out. *)
Lemma updateCreditRecursive_total (t : tree K D) key newCredit old :
  invariant t -> oldCredit t key = Some old ->
  exists res, updateCreditRecursive t key newCredit = Some res /\
              difference res = Some (newCredit - old) /\
              getCreditSum (newNode res) = getCreditSum t + (newCredit - old).
Proof.
  intros Hi Hold.
  destruct (updateCreditRecursive_spec t key newCredit)
    as (res & Hupd & He & Hi' & _ & Hd).
  exists res. split; [assumption|]. rewrite Hd, Hold. split; [reflexivity|].
  rewrite !getCreditSum_sum by auto. rewrite He.
  now apply sumCredits_updateEntries.
Qed.


End UpdateTotal.

(** C2, at the input where the code departs from it.  After the three
    inserts the total is 3 and the node of ["c"] has credit 1;
    [updateCreditByKey("c", 100)] should bring the total to 102.  The
    update rotates the root; the root slot keeps the old root ["b"], now
    the left child of ["c"], and the total read afterwards is 2. *)
Theorem updateCreditByKey_loses_new_root :
  run Examples.threeOps = Some Examples.threeTree /\
  getTotalCredit Examples.threeTree = 3 /\
  oldCredit (root Examples.threeTree) "c"%string = Some 1 /\
  (exists res,
      updateCreditRecursive (root Examples.threeTree) "c"%string 100
      = Some res /\
      getCreditSum (newNode res) = 102 /\
      keys (newNode res) = ["a"%string; "b"%string; "c"%string]) /\
  (exists this',
      updateCreditByKey Examples.threeTree "c"%string 100 = Some this' /\
      getTotalCredit this' = 2 /\
      keys (root this') = ["a"%string; "b"%string]).
Proof.
  repeat split; eexists; repeat split.
Qed.

(** The same omission with an absent key: the descent for ["z"] ends
    below ["b"], the rebalancing on the way back rotates the root, and the
    root slot keeps the node of ["a"], which has lost its child. *)
Lemma updateCreditByKey_absent_key_loses_node :
  run Examples.lightRootOps = Some Examples.lightRootTree /\
  keys (root Examples.lightRootTree) = ["a"%string; "b"%string] /\
  (exists res,
      updateCreditRecursive (root Examples.lightRootTree) "z"%string 7
      = Some res /\
      keys (newNode res) = ["a"%string; "b"%string] /\
      getCreditSum (newNode res) = 4) /\
  (exists this',
      updateCreditByKey Examples.lightRootTree "z"%string 7 = Some this' /\
      keys (root this') = ["a"%string] /\
      getTotalCredit this' = 1).
Proof.
  repeat split; eexists; repeat split.
Qed.

(** C6, at the input where the code departs from it.  The root ["b"] has
    two children and its successor is the node of ["m"] inserted first
    (credit 1).  [delete("b")] copies that node's key and payload to the
    root and then deletes by key in the right subtree, where the descent
    meets the other node of ["m"] first: the node inserted second
    (credit 5) is removed, the successor stays, and its payload is now in
    the tree twice. *)
Theorem delete_removes_other_duplicate :
  run Examples.twinOps = Some Examples.twinTree /\
  entryOf (minLargerNode (rightOf (root Examples.twinTree)))
  = Some ("m"%string, "first"%string, 1) /\
  (exists this',
      delete Examples.twinTree "b"%string = Some this' /\
      entries (root this')
      = [ ("a"%string, "A"%string, 1);
          ("m"%string, "first"%string, 10);
          ("m"%string, "first"%string, 1) ] /\
      getTotalCredit this' = 12).
Proof.
  repeat split; eexists; repeat split.
Qed.

(** ** The queries leave the structure as it is *)

Section Frame.

Context {K : Type} {KO : JsKey K} {D : Type}.

Lemma preserves_pure (S A : Type) (view : S -> memory K D) (a : A) :
  preserves view (pure a).
Proof. intros s s' a' H. inversion H. reflexivity. Qed.

Lemma preserves_abort (S A : Type) (view : S -> memory K D) :
  preserves view (@abort S A).
Proof. intros s s' a' H. discriminate. Qed.

Lemma preserves_andThen (S A B : Type) (view : S -> memory K D)
  (m : action S A) (f : A -> action S B) :
  preserves view m -> (forall a, preserves view (f a)) ->
  preserves view (andThen m f).
Proof.
  intros Hm Hf s s' b H. unfold andThen in H.
  destruct (m s) as [[s1 a]|] eqn:E; [|discriminate].
  apply Hf in H. apply Hm in E. congruence.
Qed.

Lemma preserves_read (S A : Type) (view : S -> memory K D)
  (field : object K D -> A) (a : nat) :
  preserves view (read view field a).
Proof.
  intros s s' x H. unfold read in H.
  destruct (nth_error (objects (view s)) a); inversion H. reflexivity.
Qed.

Lemma preserves_readRoot : preserves id (@readRoot K D).
Proof. intros s s' x H. inversion H. reflexivity. Qed.

Lemma preserves_getCreditSumOn (S : Type) (view : S -> memory K D)
  (node : pointer) :
  preserves view (getCreditSumOn view node).
Proof.
  destruct node; simpl; [apply preserves_read | apply preserves_pure].
Qed.

Lemma findNodeByCreditOn_preserves (fuel : nat) (node : pointer) (x : Z) :
  preserves id (findNodeByCreditOn (K:=K) (D:=D) fuel node x).
Proof.
  revert node x. induction fuel as [|fuel IH]; intros node x; simpl.
  - apply preserves_abort.
  - destruct node as [a|]; [|apply preserves_pure].
    apply preserves_andThen; [apply preserves_read|]. intros l.
    apply preserves_andThen; [apply preserves_getCreditSumOn|]. intros ls.
    destruct (x <? ls); [apply IH|].
    apply preserves_andThen; [apply preserves_read|]. intros c.
    destruct (x <? ls + c); [apply preserves_pure|].
    apply preserves_andThen; [apply preserves_read|]. intros r. apply IH.
Qed.

Lemma findNodesByKeyOn_preserves (fuel : nat) (node : pointer) (key : K) :
  preserves id (findNodesByKeyOn (D:=D) fuel node key).
Proof.
  revert node. induction fuel as [|fuel IH]; intros node; simpl.
  - apply preserves_abort.
  - destruct node as [a|]; [|apply preserves_pure].
    apply preserves_andThen; [apply preserves_read|]. intros k.
    destruct (ltb key k).
    { apply preserves_andThen; [apply preserves_read|]. intros l. apply IH. }
    destruct (ltb k key).
    { apply preserves_andThen; [apply preserves_read|]. intros r. apply IH. }
    apply preserves_andThen; [apply preserves_read|]. intros l.
    apply preserves_andThen; [apply IH|]. intros fromLeft.
    apply preserves_andThen; [apply preserves_read|]. intros r.
    apply preserves_andThen; [apply IH|]. intros fromRight.
    apply preserves_pure.
Qed.


(** *** The object graph against the subtree it holds *)

Lemma read_represents (A : Type) (m : memory K D) (a : nat) (o : object K D)
  (field : object K D -> A) :
  nth_error (objects m) a = Some o ->
  read id field a m = Some (m, field o).
Proof. intros H. unfold read, id. rewrite H. reflexivity. Qed.

Lemma nth_error_setNth (os : list (object K D)) (a : nat)
  (o o' : object K D) :
  nth_error os a = Some o -> nth_error (setNth a o' os) a = Some o'.
Proof.
  revert a. induction os as [|o1 os IH]; intros [|a] H; simpl in *;
    try discriminate; auto.
Qed.

(** The assignment of [updateCreditSum] is visible in the memory: an
    action is not read-only by its type. *)
Lemma updateCreditSumOn_writes (m : memory K D) (a : nat) (o : object K D)
  (leftSum rightSum : Z) :
  nth_error (objects m) a = Some o ->
  getCreditSumOn id (leftField o) m = Some (m, leftSum) ->
  getCreditSumOn id (rightField o) m = Some (m, rightSum) ->
  exists m',
    updateCreditSumOn (Some a) m = Some (m', tt) /\
    nth_error (objects m') a
    = Some {| keyField := keyField o; dataField := dataField o;
              creditSumField := creditField o + leftSum + rightSum;
              creditField := creditField o;
              leftField := leftField o; rightField := rightField o |}.
Proof.
  intros Hnth Hl Hr. unfold updateCreditSumOn.
  unfold andThen at 1. erewrite read_represents by exact Hnth.
  unfold andThen at 1. erewrite read_represents by exact Hnth.
  unfold andThen at 1. rewrite Hl.
  unfold andThen at 1. erewrite read_represents by exact Hnth.
  unfold andThen at 1. rewrite Hr.
  unfold writeCreditSum. rewrite Hnth. eexists. split; [reflexivity|].
  simpl. eapply nth_error_setNth. exact Hnth.
Qed.

Lemma updateCreditSumOn_not_preserved (k : K) (d : D) :
  exists m m' : memory K D,
    updateCreditSumOn (Some 0%nat) m = Some (m', tt) /\ m' <> m.
Proof.
  exists {| objects := [ {| keyField := k; dataField := d;
                           creditSumField := 0; creditField := 1;
                           leftField := None; rightField := None |} ];
            rootSlot := Some 0%nat |}.
  eexists. split; [reflexivity|]. intros H. discriminate H.
Qed.

Lemma getCreditSumOn_represents (m : memory K D) (p : pointer)
  (t : tree K D) :
  represents m p t ->
  getCreditSumOn id p m = Some (m, getCreditSum t).
Proof.
  destruct t as [|k d s c l r]; simpl.
  - intros ->. reflexivity.
  - intros (a & pl & pr & -> & Hnth & _ & _). simpl.
    erewrite read_represents by exact Hnth. reflexivity.
Qed.

Lemma findNodeByCreditOn_represents (m : memory K D) (t : tree K D) :
  forall (fuel : nat) (p : pointer) (x : Z),
    represents m p t -> (height t < fuel)%nat ->
    exists q,
      findNodeByCreditOn fuel p x m = Some (m, q) /\
      represents m q (findNodeByCreditHelper t x).
Proof.
  induction t as [|k d s c l IHl r IHr]; intros fuel p x Hrep Hfuel.
  - destruct fuel as [|fuel]; [simpl in Hfuel; lia|].
    simpl in Hrep. subst p. exists None. split; reflexivity.
  - destruct fuel as [|fuel]; [simpl in Hfuel; lia|].
    assert (Hrep' := Hrep).
    simpl in Hrep. destruct Hrep as (a & pl & pr & -> & Hnth & Hl & Hr).
    simpl in Hfuel.
    cbn [findNodeByCreditOn findNodeByCreditHelper].
    unfold andThen at 1. erewrite read_represents by exact Hnth. cbn [leftField].
    unfold andThen at 1. erewrite getCreditSumOn_represents by exact Hl.
    destruct (x <? getCreditSum l) eqn:E1.
    { apply IHl; [assumption | lia]. }
    unfold andThen at 1. erewrite read_represents by exact Hnth. cbn [creditField].
    destruct (x <? getCreditSum l + c) eqn:E2.
    { exists (Some a). split; [reflexivity | exact Hrep']. }
    unfold andThen at 1. erewrite read_represents by exact Hnth. cbn [rightField].
    apply IHr; [assumption | lia].
Qed.

Lemma findNodesByKeyOn_represents (m : memory K D) (key : K) (t : tree K D) :
  forall (fuel : nat) (p : pointer),
    represents m p t -> (height t < fuel)%nat ->
    exists ps,
      findNodesByKeyOn fuel p key m = Some (m, ps) /\
      Forall2 (represents m) ps (findNodesByKeyHelper t key).
Proof.
  induction t as [|k d s c l IHl r IHr]; intros fuel p Hrep Hfuel.
  - destruct fuel as [|fuel]; [simpl in Hfuel; lia|].
    simpl in Hrep. subst p. exists []. split; [reflexivity | constructor].
  - destruct fuel as [|fuel]; [simpl in Hfuel; lia|].
    assert (Hrep' := Hrep).
    simpl in Hrep. destruct Hrep as (a & pl & pr & -> & Hnth & Hl & Hr).
    simpl in Hfuel.
    cbn [findNodesByKeyOn findNodesByKeyHelper].
    unfold andThen at 1. erewrite read_represents by exact Hnth. cbn [keyField].
    destruct (ltb key k) eqn:E1.
    { unfold andThen at 1. erewrite read_represents by exact Hnth. cbn [leftField].
      apply IHl; [assumption | lia]. }
    destruct (ltb k key) eqn:E2.
    { unfold andThen at 1. erewrite read_represents by exact Hnth. cbn [rightField].
      apply IHr; [assumption | lia]. }
    destruct (IHl fuel pl Hl ltac:(lia)) as (psl & El & Fl).
    destruct (IHr fuel pr Hr ltac:(lia)) as (psr & Er & Fr).
    unfold andThen at 1. erewrite read_represents by exact Hnth. cbn [leftField].
    unfold andThen at 1. rewrite El.
    unfold andThen at 1. erewrite read_represents by exact Hnth. cbn [rightField].
    unfold andThen at 1. rewrite Er.
    exists (psl ++ [Some a] ++ psr). split; [reflexivity|].
    apply Forall2_app; [assumption|].
    apply Forall2_app; [|assumption].
    constructor; [exact Hrep' | constructor].
Qed.

End Frame.

Section PrefixFrame.

Context {D : Type}.

Lemma preserves_push (node : pointer) :
  preserves fst (push (D:=D) node).
Proof. intros s s' x H. inversion H. reflexivity. Qed.

Lemma findNodesByPrefixOn_preserves (fuel : nat) (node : pointer)
  (prefix : string) :
  preserves fst (findNodesByPrefixOn (D:=D) fuel node prefix).
Proof.
  revert node. induction fuel as [|fuel IH]; intros node; simpl.
  - apply preserves_abort.
  - destruct node as [a|]; [|apply preserves_pure].
    apply preserves_andThen; [apply preserves_read|]. intros k.
    destruct ((prefix =? "")%string || String.prefix prefix k).
    { apply preserves_andThen; [apply preserves_push|]. intros _.
      apply preserves_andThen; [apply preserves_read|]. intros l.
      apply preserves_andThen; [apply IH|]. intros _.
      apply preserves_andThen; [apply preserves_read|]. intros r. apply IH. }
    destruct (String.ltb prefix k).
    { apply preserves_andThen; [apply preserves_read|]. intros l. apply IH. }
    apply preserves_andThen; [apply preserves_read|]. intros r. apply IH.
Qed.

Lemma findNodesByPrefixMethod_preserves (fuel : nat)
  (prefix : option string) :
  preserves id (findNodesByPrefixMethod (D:=D) fuel prefix).
Proof.
  intros m m' ps H. unfold findNodesByPrefixMethod in H.
  cbv zeta in H.
  destruct (findNodesByPrefixOn fuel (rootSlot m) _ (m, []))
    as [[[m1 rs] u]|] eqn:E; [|discriminate].
  apply findNodesByPrefixOn_preserves in E. simpl in E.
  inversion H. unfold id. congruence.
Qed.

Lemma andThen_returns (S A B : Type) (m : action S A)
  (f : A -> action S B) (s s' : S) (a : A) :
  m s = Some (s', a) -> andThen m f s = f a s'.
Proof. intros H. unfold andThen. rewrite H. reflexivity. Qed.

Lemma read_fst_represents (A : Type) (m : memory string D)
  (results : list pointer) (a : nat) (o : object string D)
  (field : object string D -> A) :
  nth_error (objects m) a = Some o ->
  read fst field a (m, results) = Some ((m, results), field o).
Proof. intros H. unfold read. simpl. rewrite H. reflexivity. Qed.

Lemma findNodesByPrefixOn_represents (m : memory string D)
  (prefix : string) (t : tree string D) :
  forall (fuel : nat) (p : pointer) (results : list pointer)
         (acc : list (tree string D)),
    represents m p t -> (height t < fuel)%nat ->
    Forall2 (represents m) results acc ->
    exists results',
      findNodesByPrefixOn fuel p prefix (m, results)
      = Some ((m, results'), tt) /\
      Forall2 (represents m) results' (findNodesByPrefixHelper t prefix acc).
Proof.
  induction t as [|k d s c l IHl r IHr];
    intros fuel p results acc Hrep Hfuel Hacc.
  - destruct fuel as [|fuel]; [simpl in Hfuel; lia|].
    simpl in Hrep. subst p. exists results. split; [reflexivity | exact Hacc].
  - destruct fuel as [|fuel]; [simpl in Hfuel; lia|].
    assert (Hrep' := Hrep).
    simpl in Hrep. destruct Hrep as (a & pl & pr & -> & Hnth & Hl & Hr).
    simpl in Hfuel.
    cbn [findNodesByPrefixOn findNodesByPrefixHelper].
    unfold andThen at 1. erewrite read_fst_represents by exact Hnth.
    cbn [keyField].
    destruct ((prefix =? "")%string || String.prefix prefix k) eqn:E1.
    { unfold andThen at 1. unfold push at 1. cbn [fst snd].
      unfold andThen at 1. erewrite read_fst_represents by exact Hnth.
      cbn [leftField].
      assert (Hacc1 : Forall2 (represents m) (results ++ [Some a])
                        (acc ++ [Node k d s c l r])).
      { apply Forall2_app; [assumption|].
        constructor; [exact Hrep' | constructor]. }
      destruct (IHl fuel pl _ _ Hl ltac:(lia) Hacc1) as (rs1 & El & Fl).
      erewrite andThen_returns by exact El.
      unfold andThen at 1. erewrite read_fst_represents by exact Hnth.
      cbn [rightField].
      apply IHr; [assumption | lia | assumption]. }
    destruct (String.ltb prefix k) eqn:E2.
    { unfold andThen at 1. erewrite read_fst_represents by exact Hnth.
      cbn [leftField]. apply IHl; [assumption | lia | assumption]. }
    unfold andThen at 1. erewrite read_fst_represents by exact Hnth.
    cbn [rightField]. apply IHr; [assumption | lia | assumption].
Qed.

(** C9. The three queries leave the structure as it is.  Run on a memory
    whose [root] slot holds the subtree [t], with fuel beyond the height
    of [t], [findNodeByCredit], [findNodesByKey] and [findNodesByPrefix]
    return, the memory they hand back is the memory they received (every
    node's key, data, credit, creditSum, left and right, and the
    structure's root), and the references they return hold the results
    computed on [t].  On any memory whatever, and with any fuel, a call
    that returns hands back the memory it received. *)
Theorem queries_do_not_mutate (m : memory string D) (t : tree string D)
  (fuel : nat) (creditSum : Z) (key : string) (prefix : option string) :
  represents m (rootSlot m) t ->
  (height t < fuel)%nat ->
  (exists p,
     findNodeByCreditMethod fuel creditSum m = Some (m, p) /\
     represents m p (findNodeByCredit {| root := t |} creditSum)) /\
  (exists ps,
     findNodesByKeyMethod fuel key m = Some (m, ps) /\
     Forall2 (represents m) ps (findNodesByKey {| root := t |} key)) /\
  (exists ps,
     findNodesByPrefixMethod fuel prefix m = Some (m, ps) /\
     Forall2 (represents m) ps (findNodesByPrefix {| root := t |} prefix)) /\
  (forall n,
     preserves id (findNodeByCreditMethod (K:=string) (D:=D) n creditSum) /\
     preserves id (findNodesByKeyMethod (D:=D) n key) /\
     preserves id (findNodesByPrefixMethod (D:=D) n prefix)).
Proof.
  intros Hrep Hfuel. split; [|split; [|split]].
  - unfold findNodeByCreditMethod, readRoot, andThen, findNodeByCredit.
    cbn [root]. eapply findNodeByCreditOn_represents; eassumption.
  - unfold findNodesByKeyMethod, readRoot, andThen, findNodesByKey.
    cbn [root]. eapply findNodesByKeyOn_represents; eassumption.
  - unfold findNodesByPrefixMethod, findNodesByPrefix. cbn [root].
    edestruct findNodesByPrefixOn_represents as (ps & E & R);
      [exact Hrep | exact Hfuel | apply Forall2_nil |].
    exists ps. cbv zeta. rewrite E. split; [reflexivity | exact R].
  - intros n. split; [|split].
    + apply preserves_andThen; [apply preserves_readRoot|].
      intros node. apply findNodeByCreditOn_preserves.
    + apply preserves_andThen; [apply preserves_readRoot|].
      intros node. apply findNodesByKeyOn_preserves.
    + apply findNodesByPrefixMethod_preserves.
Qed.

End PrefixFrame.

Lemma readmeMemory_represents :
  represents MemoryExamples.readmeMemory
    (rootSlot MemoryExamples.readmeMemory) (root Examples.readmeTree).
Proof.
  simpl. exists 0%nat, (Some 1%nat), (Some 2%nat).
  split; [reflexivity|]. split; [reflexivity|]. split.
  - exists 1%nat, None, None. repeat split; reflexivity.
  - exists 2%nat, None, None. repeat split; reflexivity.
Qed.

Lemma queries_do_not_mutate_witness :
  represents MemoryExamples.readmeMemory
    (rootSlot MemoryExamples.readmeMemory) (root Examples.readmeTree) /\
  (height (root Examples.readmeTree) < 3)%nat /\
  (exists p,
     findNodeByCreditMethod 3 25 MemoryExamples.readmeMemory
     = Some (MemoryExamples.readmeMemory, p) /\
     represents MemoryExamples.readmeMemory p
       (findNodeByCredit {| root := root Examples.readmeTree |} 25)) /\
  (exists ps,
     findNodesByKeyMethod 3 "user2"%string MemoryExamples.readmeMemory
     = Some (MemoryExamples.readmeMemory, ps) /\
     Forall2 (represents MemoryExamples.readmeMemory) ps
       (findNodesByKey {| root := root Examples.readmeTree |}
          "user2"%string)) /\
  (exists ps,
     findNodesByPrefixMethod 3 (Some "user"%string)
       MemoryExamples.readmeMemory
     = Some (MemoryExamples.readmeMemory, ps) /\
     Forall2 (represents MemoryExamples.readmeMemory) ps
       (findNodesByPrefix {| root := root Examples.readmeTree |}
          (Some "user"%string))) /\
  (forall n,
     preserves id
       (findNodeByCreditMethod (K:=string) (D:=string) n 25) /\
     preserves id (findNodesByKeyMethod (D:=string) n "user2"%string) /\
     preserves id
       (findNodesByPrefixMethod (D:=string) n (Some "user"%string))).
Proof.
  split; [exact readmeMemory_represents|].
  split; [simpl; lia|].
  apply (@queries_do_not_mutate string MemoryExamples.readmeMemory
           (root Examples.readmeTree) 3 25 "user2"%string
           (Some "user"%string)).
  - exact readmeMemory_represents.
  - simpl. lia.
Defined.

(** ** Deleting a node with two children *)

Section SuccessorFacts.

Context {K : Type} {KO : JsKey K} {D : Type}.

(** Deleting the first key of an ordered subtree removes its first node
    when no other node carries that key. *)
Lemma deleteEntries_first (r : tree K D) : forall e rest,
  ordered r -> entries r = e :: rest ->
  ~ In (entryKey e) (map entryKey rest) ->
  deleteEntries r (entryKey e) = rest.
Proof.
  induction r as [|rk rd rs rc rl IHl rr _]; intros e rest Ho He Hu;
    [discriminate|].
  apply ordered_Node in Ho. destruct Ho as (Hol & _ & Hlk & _).
  destruct rl as [|lk ld ls lc ll lr].
  - simpl in He. injection He as <- <-. simpl.
    change (entryKey (rk, rd, rc)) with rk. now rewrite ltb_irrefl.
  - destruct (@minLargerNode_first _ _ (Node lk ld ls lc ll lr))
      as (mk & md & ms & mc & ml & mr & restl & _ & Hel); [discriminate|].
    change (entries (Node rk rd rs rc (Node lk ld ls lc ll lr) rr))
      with (entries (Node lk ld ls lc ll lr) ++ [(rk, rd, rc)] ++ entries rr)
      in He.
    rewrite Hel in He. simpl in He. injection He as <- <-.
    change (entryKey (mk, md, mc)) with mk in *.
    rewrite map_app, in_app_iff in Hu. simpl in Hu.
    change (entryKey (rk, rd, rc)) with rk in Hu.
    assert (Hle : key_le mk rk).
    { apply Hlk. unfold keys. rewrite Hel. simpl. now left. }
    assert (Hlt : ltb mk rk = true).
    { destruct (ltb mk rk) eqn:E; [reflexivity|].
      exfalso. apply Hu. right. left. symmetry. now apply ltb_total. }
    remember (Node lk ld ls lc ll lr) as rl eqn:Erl in *.
    simpl.
    rewrite Hlt.
    change mk with (entryKey (mk, md, mc)) at 1.
    rewrite (IHl (mk, md, mc) restl Hol Hel); [reflexivity|tauto].
Qed.


End SuccessorFacts.

(** * Further properties of the code *)

(** ** Insertion *)

Section InsertFacts.

Context {K : Type} {KO : JsKey K} {D : Type}.

Implicit Types (t : tree K D) (key k : K).

(** On an ordered tree the new entry lands after every entry whose key is
    not above [key] and before every entry whose key is above it. *)
Lemma insertEntries_split t key (data : D) credit :
  ordered t ->
  exists pre post,
    entries t = pre ++ post /\
    insertEntries t key data credit = pre ++ (key, data, credit) :: post /\
    (forall e, In e pre -> ltb key (entryKey e) = false) /\
    (forall e, In e post -> ltb key (entryKey e) = true).
Proof.
  induction t as [|k d s c l IHl r IHr]; intros Ho.
  - exists [], []. simpl. repeat split; intros e [].
  - apply ordered_Node in Ho. destruct Ho as (Hl & Hr & Hlk & Hkr).
    simpl. destruct (ltb key k) eqn:E.
    + destruct (IHl Hl) as (pre & post & He & Hi & Hpre & Hpost).
      exists pre, (post ++ (k, d, c) :: entries r).
      rewrite He, Hi, <- !app_assoc. simpl.
      split; [reflexivity|]. split; [reflexivity|]. split; [assumption|].
      intros e He'. apply in_app_iff in He'.
      destruct He' as [He'|[<-|He']]; [auto|exact E|].
      eapply key_lt_le_trans; [exact E|]. apply Hkr.
      unfold keys. now apply in_map.
    + destruct (IHr Hr) as (pre & post & He & Hi & Hpre & Hpost).
      exists (entries l ++ (k, d, c) :: pre), post.
      rewrite He, Hi, <- !app_assoc. simpl.
      split; [reflexivity|]. split; [reflexivity|]. split; [|assumption].
      intros e He'. apply in_app_iff in He'.
      destruct He' as [He'|[<-|He']]; [|exact E|auto].
      destruct (ltb key (entryKey e)) eqn:E'; [|reflexivity].
      assert (Hlt : ltb key k = true).
      { eapply key_lt_le_trans; [exact E'|]. apply Hlk.
        unfold keys. now apply in_map. }
      congruence.
Qed.



End InsertFacts.


(** ** Exact-key lookup after insertion *)

Section KeyLookupFacts.

Context {K : Type} {KO : JsKey K} {D : Type}.

Implicit Types (t : tree K D) (key k : K).

Lemma withKey_app key (es1 es2 : list (@entry K D)) :
  withKey key (es1 ++ es2) = withKey key es1 ++ withKey key es2.
Proof. apply filter_app. Qed.

Lemma withKey_nil_iff key (es : list (@entry K D)) :
  withKey key es = [] <-> ~ In key (map entryKey es).
Proof.
  unfold withKey. induction es as [|e es IH]; simpl; [tauto|].
  destruct (eqb (entryKey e) key) eqn:E.
  - apply eqb_eq in E. split; [discriminate|]. intros H. exfalso. auto.
  - apply eqb_false_iff in E. rewrite IH. tauto.
Qed.

Lemma findNodesByKeyHelper_entries t key :
  ordered t ->
  map (@entryOf K D) (findNodesByKeyHelper t key)
  = map Some (withKey key (entries t)).
Proof.
  intros Ho. rewrite findNodesByKeyHelper_ordered by assumption.
  apply filter_nodes_entries.
Qed.

(** X2.  On a structure reached from the empty one, [findNodesByKey]
    returns all the nodes that carry the key, duplicates included, in
    symmetric order, each with its own payload and credit; the result is
    empty exactly when no node carries the key. *)
Theorem findNodesByKey_all
  (ops : list (operation K D)) (this : CreditBalancedBST K D) (key : K) :
  run ops = Some this ->
  findNodesByKey this key = filter (keyIs key) (nodes (root this)) /\
  map (@entryOf K D) (findNodesByKey this key)
  = map Some (withKey key (entries (root this))) /\
  (findNodesByKey this key = [] <-> ~ hasKey (root this) key).
Proof.
  intros Hrun.
  assert (Ho : ordered (root this)) by (eapply run_invariant; eassumption).
  pose proof (findNodesByKeyHelper_entries key Ho) as He.
  unfold findNodesByKey. split; [now apply findNodesByKeyHelper_ordered|].
  split; [exact He|].
  unfold hasKey, keys. rewrite <- withKey_nil_iff. split.
  - intros H. rewrite H in He. simpl in He.
    destruct (withKey key (entries (root this))); [reflexivity|discriminate].
  - intros H. rewrite H in He. simpl in He.
    destruct (findNodesByKeyHelper (root this) key);
      [reflexivity|discriminate].
Qed.

(** X3.  On a structure reached from the empty one, after
    [insert(key, data, credit)] the lookup of [key] returns what it
    returned before followed by the new node: equal keys are found in
    insertion order.  The lookup of any other key returns the same keys,
    payloads and credits as before. *)
Theorem insert_extends_findNodesByKey
  (ops : list (operation K D)) (this : CreditBalancedBST K D)
  (key : K) (data : D) (credit : Z) :
  run ops = Some this ->
  exists this',
    insert this key data credit = Some this' /\
    map (@entryOf K D) (findNodesByKey this' key)
    = map (@entryOf K D) (findNodesByKey this key)
      ++ [Some (key, data, credit)] /\
    forall other, other <> key ->
      map (@entryOf K D) (findNodesByKey this' other)
      = map (@entryOf K D) (findNodesByKey this other).
Proof.
  intros Hrun.
  assert (Ho : ordered (root this)) by (eapply run_invariant; eassumption).
  destruct this as [t]. simpl in *.
  destruct (insertNode_spec t key data credit) as (t' & Hins & He & _).
  assert (Ho' : ordered t') by (eapply insertNode_ordered; eassumption).
  destruct (@insertEntries_split _ _ _ t key data credit Ho)
    as (pre & post & Hsplit & Hnew & Hpre & Hpost).
  exists {| root := t' |}. unfold insert, findNodesByKey. simpl.
  rewrite Hins. split; [reflexivity|].
  split.
  - rewrite !findNodesByKeyHelper_entries by assumption.
    rewrite He, Hnew, Hsplit.
    change (pre ++ (key, data, credit) :: post)
      with (pre ++ [(key, data, credit)] ++ post).
    rewrite !withKey_app.
    assert (Hnone : withKey key post = []).
    { apply filter_none. intros e Hin. apply eqb_false_iff. intros Heq.
      specialize (Hpost e Hin). rewrite Heq, ltb_irrefl in Hpost.
      discriminate. }
    rewrite Hnone, !app_nil_r, map_app. f_equal.
    unfold withKey. simpl. change (entryKey (key, data, credit)) with key.
    now rewrite eqb_refl_key.
  - intros other Hne.
    rewrite !findNodesByKeyHelper_entries by assumption.
    rewrite He, Hnew, Hsplit.
    change (pre ++ (key, data, credit) :: post)
      with (pre ++ [(key, data, credit)] ++ post).
    rewrite !withKey_app. do 2 f_equal.
    unfold withKey. simpl. change (entryKey (key, data, credit)) with key.
    assert (eqb key other = false) as -> by (apply eqb_false_iff; congruence).
    reflexivity.
Qed.

End KeyLookupFacts.

Lemma findNodesByKey_all_witness :
  findNodesByKey Examples.twinTree "m"%string
  = filter (keyIs "m"%string) (nodes (root Examples.twinTree)) /\
  map (@entryOf string string) (findNodesByKey Examples.twinTree "m"%string)
  = map Some (withKey "m"%string (entries (root Examples.twinTree))) /\
  (findNodesByKey Examples.twinTree "m"%string = [] <->
   ~ hasKey (root Examples.twinTree) "m"%string).
Proof.
  apply (findNodesByKey_all Examples.twinOps). reflexivity.
Defined.

Lemma insert_extends_findNodesByKey_witness :
  exists this',
    insert Examples.twinTree "m"%string "third"%string 2 = Some this' /\
    map (@entryOf string string) (findNodesByKey this' "m"%string)
    = map (@entryOf string string) (findNodesByKey Examples.twinTree "m"%string)
      ++ [Some ("m"%string, "third"%string, 2)] /\
    forall other, other <> "m"%string ->
      map (@entryOf string string) (findNodesByKey this' other)
      = map (@entryOf string string) (findNodesByKey Examples.twinTree other).
Proof.
  apply (insert_extends_findNodesByKey Examples.twinOps). reflexivity.
Defined.

(** ** Deletion *)

Section DeleteFacts.

Context {K : Type} {KO : JsKey K} {D : Type}.

Implicit Types (t : tree K D) (key k : K).











End DeleteFacts.


Section DeleteDistinct.

Context {K : Type} {KO : JsKey K} {D : Type}.

Implicit Types (t : tree K D) (key k : K).

Lemma withoutKey_app key (es1 es2 : list (@entry K D)) :
  withoutKey key (es1 ++ es2) = withoutKey key es1 ++ withoutKey key es2.
Proof. apply filter_app. Qed.

Lemma withoutKey_absent key (es : list (@entry K D)) :
  ~ In key (map entryKey es) -> withoutKey key es = es.
Proof.
  intros H. unfold withoutKey. apply forallb_filter_id, forallb_forall.
  intros e He. apply negb_true_iff, eqb_false_iff. intros <-.
  apply H. now apply in_map.
Qed.

Lemma withoutKey_keys key (es : list (@entry K D)) :
  map entryKey (withoutKey key es)
  = filter (fun y => negb (eqb y key)) (map entryKey es).
Proof.
  unfold withoutKey. induction es as [|e es IH]; simpl; [reflexivity|].
  destruct (eqb (entryKey e) key); simpl; now rewrite IH.
Qed.

Lemma NoDup_keys_Node k0 (d : D) s c (l r : tree K D) :
  NoDup (keys (Node k0 d s c l r)) ->
  NoDup (keys l) /\ NoDup (keys r) /\
  ~ In k0 (keys l) /\ ~ In k0 (keys r).
Proof.
  rewrite keys_Node. intros H.
  pose proof (NoDup_remove_2 _ _ _ H) as Hk. rewrite in_app_iff in Hk.
  pose proof (NoDup_app_remove_r _ _ H) as Hl.
  pose proof (NoDup_app_remove_l _ _ H) as Hr.
  inversion Hr; subst. tauto.
Qed.

(** With distinct keys [deleteNode] removes the entry of [key] and keeps
    every other key with its payload, in order. *)
Lemma deleteEntries_distinct t : forall key,
  ordered t -> NoDup (keys t) ->
  map keyData (deleteEntries t key)
  = map keyData (withoutKey key (entries t)).
Proof.
  induction t as [|k0 d s c l IHl r IHr]; intros key Ho Hnd; [reflexivity|].
  pose proof Ho as Ho0.
  apply ordered_Node in Ho. destruct Ho as (Hol & Hor & Hlk & Hkr).
  apply NoDup_keys_Node in Hnd. destruct Hnd as (Hdl & Hdr & Hnl & Hnr).
  change (entries (Node k0 d s c l r)) with (entries l ++ [(k0, d, c)] ++ entries r).
  rewrite !withoutKey_app.
  change (withoutKey key [(k0, d, c)])
    with (if negb (eqb k0 key) then [(k0, d, c)] else []).
  change (deleteEntries (Node k0 d s c l r) key)
    with (if ltb key k0 then deleteEntries l key ++ [(k0, d, c)] ++ entries r
          else if ltb k0 key
               then entries l ++ [(k0, d, c)] ++ deleteEntries r key
               else match l, r with
                    | Null, _ => entries r
                    | _, Null => entries l
                    | _, _ =>
                        match minLargerNode r with
                        | Null => []
                        | Node mk md _ _ _ _ =>
                            entries l ++ [(mk, md, c)] ++ deleteEntries r mk
                        end
                    end).
  destruct (ltb key k0) eqn:E1; [|destruct (ltb k0 key) eqn:E2].
  - assert (eqb k0 key = false) as ->.
    { apply eqb_false_iff. intros ->. now rewrite ltb_irrefl in E1. }
    rewrite (withoutKey_absent key (entries r)).
    + rewrite !map_app. now rewrite IHl.
    + intros H. specialize (Hkr _ H). unfold key_le in Hkr. congruence.
  - assert (eqb k0 key = false) as ->.
    { apply eqb_false_iff. intros ->. now rewrite ltb_irrefl in E2. }
    rewrite (withoutKey_absent key (entries l)).
    + rewrite !map_app. now rewrite IHr.
    + intros H. specialize (Hlk _ H). unfold key_le in Hlk. congruence.
  - assert (Heq : key = k0) by now apply ltb_total.
    subst key. rewrite eqb_refl_key. simpl negb. cbv iota.
    rewrite (withoutKey_absent k0 (entries l)) by assumption.
    rewrite (withoutKey_absent k0 (entries r)) by assumption.
    destruct l as [|lk ld ls lc ll lr]; [reflexivity|].
    destruct r as [|rk rd rs rc rl rr]; [now rewrite !app_nil_r|].
    destruct (@minLargerNode_first _ _ (Node rk rd rs rc rl rr))
      as (mk & md & ms & mc & ml & mr & rest & Hm & He); [discriminate|].
    rewrite Hm.
    assert (Hu : ~ In (entryKey (mk, md, mc)) (map entryKey rest)).
    { unfold keys in Hdr. rewrite He in Hdr. simpl in Hdr.
      now inversion Hdr. }
    pose proof (deleteEntries_first Hor He Hu) as Hfirst.
    change (entryKey (mk, md, mc)) with mk in Hfirst.
    rewrite Hfirst, He. rewrite !map_app. reflexivity.
Qed.

(** X5.  On a structure reached from the empty one whose keys are
    pairwise distinct, [delete(key)] removes the entry of [key] (nothing
    when the key is absent) and keeps every other key with its payload,
    in the same order; the keys stay distinct.  Nothing is said of the
    credits: when the deleted node has two children its credit stays in
    the tree and the credit of its successor is the one that leaves. *)
Theorem delete_distinct_keys
  (ops : list (operation K D)) (this : CreditBalancedBST K D) (key : K) :
  run ops = Some this ->
  NoDup (keys (root this)) ->
  exists this',
    delete this key = Some this' /\
    map keyData (entries (root this'))
    = map keyData (withoutKey key (entries (root this))) /\
    NoDup (keys (root this')).
Proof.
  intros Hrun Hnd.
  assert (Ho : ordered (root this)) by (eapply run_invariant; eassumption).
  destruct this as [t]. simpl in *.
  destruct (deleteNode_spec t key) as (t' & Hdel & He & _).
  exists {| root := t' |}. unfold delete. simpl. rewrite Hdel.
  split; [reflexivity|].
  assert (Hkd : map keyData (entries t')
                = map keyData (withoutKey key (entries t))).
  { rewrite He. now apply deleteEntries_distinct. }
  split; [exact Hkd|].
  assert (Hkeys : keys t' = map entryKey (withoutKey key (entries t))).
  { unfold keys.
    change (@entryKey K D) with (fun e : @entry K D => fst (keyData e)).
    rewrite <- !(map_map keyData fst). now rewrite Hkd. }
  rewrite Hkeys, withoutKey_keys. now apply NoDup_filter.
Qed.

End DeleteDistinct.

Lemma delete_distinct_keys_witness :
  exists this',
    delete Examples.unsettledTree "b"%string = Some this' /\
    map keyData (entries (root this'))
    = map keyData
        (withoutKey "b"%string (entries (root Examples.unsettledTree))) /\
    NoDup (keys (root this')).
Proof.
  apply (delete_distinct_keys Examples.unsettledOps).
  - reflexivity.
  - vm_compute. repeat constructor; simpl; intuition discriminate.
Defined.

(** ** Credit update *)

Section UpdateMore.

Context {K : Type} {KO : JsKey K} {D : Type}.

Implicit Types (t : tree K D) (key k : K).








End UpdateMore.



(** ** Rotations and rebalancing *)

Section RotationMore.

Context {K : Type} {KO : JsKey K} {D : Type}.

Implicit Types (t x y : tree K D).



#[local] Arguments Z.mul : simpl never.



End RotationMore.




(** ** Cumulative-credit lookup, further *)

Section CreditLookupMore.

Context {K : Type} {KO : JsKey K} {D : Type}.

Lemma findNodeByCreditHelper_result (t : tree K D) : forall target,
  findNodeByCreditHelper t target = Null \/
  (In (findNodeByCreditHelper t target) (nodes t) /\
   0 < creditOf (findNodeByCreditHelper t target)).
Proof.
  induction t as [|k d s c l IHl r IHr]; intros target; [now left|].
  simpl findNodeByCreditHelper.
  change (nodes (Node k d s c l r)) with (nodes l ++ [Node k d s c l r] ++ nodes r).
  destruct (Z.ltb_spec target (getCreditSum l)).
  - destruct (IHl target) as [H0|[H1 H2]]; [now left|right].
    split; [|assumption]. apply in_app_iff. now left.
  - destruct (Z.ltb_spec target (getCreditSum l + c)).
    + right. split.
      * apply in_app_iff. right. now left.
      * simpl. lia.
    + destruct (IHr (target - getCreditSum l - c)) as [H1|[H1 H2]];
        [now left|right].
      split; [|assumption]. apply in_app_iff. right. now right.
Qed.

(** X11.  On every structure and for every target, [findNodeByCredit]
    returns [null] or a node of the structure whose credit is strictly
    positive: a node of credit zero or less is never selected. *)
Theorem findNodeByCredit_selects_positive_credit
  (this : CreditBalancedBST K D) (target : Z) :
  findNodeByCredit this target = Null \/
  (In (findNodeByCredit this target) (nodes (root this)) /\
   0 < creditOf (findNodeByCredit this target)).
Proof. apply findNodeByCreditHelper_result. Qed.



End CreditLookupMore.


(** ** Key and prefix lookup together *)

Section KeyAndPrefix.

Context {D : Type}.

Lemma prefix_refl (k : string) : String.prefix k k = true.
Proof.
  induction k as [|a k IH]; [reflexivity|].
  apply prefix_cons. now split.
Qed.

(** X13.  On a structure with string keys reached from the empty one,
    every node that [findNodesByKey(key)] returns is also returned by
    [findNodesByPrefix(key)]. *)
Theorem findNodesByKey_within_prefix
  (ops : list (operation string D)) (this : CreditBalancedBST string D)
  (key : string) :
  run ops = Some this ->
  Forall (fun node => In node (findNodesByPrefix this (Some key)))
         (findNodesByKey this key).
Proof.
  intros Hrun. apply Forall_forall. intros node Hn.
  assert (Ho : ordered (root this)) by (eapply run_invariant; eassumption).
  unfold findNodesByKey in Hn. unfold findNodesByPrefix.
  rewrite findNodesByKeyHelper_ordered in Hn by assumption.
  rewrite findNodesByPrefixHelper_ordered by assumption. simpl.
  apply filter_In in Hn. destruct Hn as [Hin Hkey].
  apply filter_In. split.
  - eapply Permutation_in; [apply Permutation_sym, preorder_nodes|assumption].
  - destruct node as [|k d s c l r]; [discriminate|]. simpl in *.
    apply String.eqb_eq in Hkey. subst. apply prefix_refl.
Qed.

End KeyAndPrefix.

Lemma findNodesByKey_within_prefix_witness :
  Forall (fun node =>
            In node (findNodesByPrefix Examples.readmeTree
                       (Some "user2"%string)))
         (findNodesByKey Examples.readmeTree "user2"%string).
Proof.
  apply (@findNodesByKey_within_prefix string Examples.readmeOps).
  reflexivity.
Defined.

(** ** Sequences of inserts, and the total *)

Section SequenceMore.

Context {K : Type} {KO : JsKey K} {D : Type}.






End SequenceMore.



(** ** Non-negative credits *)

Section NonNegativeCredits.

Context {K : Type} {KO : JsKey K} {D : Type}.

Implicit Types (t : tree K D).







End NonNegativeCredits.


(** ** The credit of a deleted node with two children *)

Section TwoChildren.

Context {K : Type} {KO : JsKey K} {D : Type}.


End TwoChildren.


(** ** Mutators on arbitrary structures *)

Section AnyStructure.

Context {K : Type} {KO : JsKey K} {D : Type}.

(** X18.  On every structure, whether or not it was built by the public
    operations, [insert], [delete] and [updateCreditByKey] do not throw:
    no rotation is ever applied to a node that lacks the child it needs.
    Each keeps the aggregate invariant if it held, and the key order if
    it held. *)
Theorem mutators_never_throw
  (this : CreditBalancedBST K D) (o : operation K D) :
  exists this',
    perform this o = Some this' /\
    (invariant (root this) -> invariant (root this')) /\
    (ordered (root this) -> ordered (root this')).
Proof. apply perform_spec. Qed.

End AnyStructure.
